(** * Verification of the PDF text pipeline of [src/pdfService.ts]

    The development embeds the text normalizer ([cleanText]), the quality
    classifier ([containsRealWords], [isTextQualityGood]), the chunker
    ([chunkText]) and the two extraction entry points ([extractPdfText],
    [extractPdfWithOcr]) and states the properties of the specification
    about them.

    Modelling choices.
    - A JavaScript string is the list of its UTF-16 code units; the regular
      expressions of the source carry no [u] flag, so they work on code
      units as well.
    - Indices and lengths are integers ([Z]); [slice] clamps as
      [String.prototype.slice] does.
    - The ratios of the classifier are exact rationals ([Q]).  The counts
      are integers far below 2^53, IEEE division is correctly rounded and
      the constants are decimal literals, so comparing the rounded quotient
      with the rounded literal agrees with the exact comparison whenever the
      quotient equals the literal, which is the case the boundary claim is
      about.
    - [console.log] and [console.error] are not modelled.
    - The external parser [pdf] is a parameter: a function of the buffer
      and of the state of the outside world that either returns its data or
      throws.
    - An [await] is a suspension point: other calls run before the caller
      goes on.  The extraction paths keep only local variables across their
      awaits, so for them the parser is a transition of the outside world.
      The functions of the OCR worker share the module variable
      [ocrWorker]: their awaited collaborators are transitions of the world
      together with [ocrWorker], and what is proved of them holds whatever
      ran during the await. *)

From Stdlib Require Import ZArith NArith List Bool Lia QArith String Ascii.
Import ListNotations.

Local Open Scope Z_scope.

(* ------------------------------------------------------------------ *)
(** ** JavaScript strings *)
(* ------------------------------------------------------------------ *)

Module JS.

(** A UTF-16 code unit. *)
Definition char := N.
Bind Scope N_scope with char.

Definition jsstring := list char.

(** [s.length] *)
Definition length (s : jsstring) : Z := Z.of_nat (List.length s).

(** Code units of an ASCII literal, for readable examples. *)
Definition lit (s : string) : jsstring :=
  map N_of_ascii (list_ascii_of_string s).

Definition LF : char := 0x0A%N.
Definition SPACE : char := 0x20%N.
Definition NBSP : char := 0xA0%N.

Definition inRange (lo hi c : char) : bool := (N.leb lo c && N.leb c hi)%bool.

(** WhiteSpace and LineTerminator of ECMAScript, the code units that
    [String.prototype.trim] strips. *)
Definition isWhiteSpace (c : char) : bool :=
  (inRange 0x09 0x0D c || N.eqb c 0x20 || N.eqb c 0xA0 || N.eqb c 0x1680
   || inRange 0x2000 0x200A c || N.eqb c 0x2028 || N.eqb c 0x2029
   || N.eqb c 0x202F || N.eqb c 0x205F || N.eqb c 0x3000
   || N.eqb c 0xFEFF)%bool.

Fixpoint dropWhile (p : char -> bool) (s : jsstring) : jsstring :=
  match s with
  | [] => []
  | c :: s' => if p c then dropWhile p s' else s
  end.

(** [s.trimStart()] *)
Definition trimStart (s : jsstring) : jsstring := dropWhile isWhiteSpace s.

(** [s.trimEnd()]: a code unit stays when something stays behind it or
    when it is not whitespace itself. *)
Fixpoint trimEnd (s : jsstring) : jsstring :=
  match s with
  | [] => []
  | c :: s' =>
      match trimEnd s' with
      | [] => if isWhiteSpace c then [] else [c]
      | t => c :: t
      end
  end.

(** [s.trim()] *)
Definition trim (s : jsstring) : jsstring := trimEnd (trimStart s).

(** [s.slice(start, end)]: negative indices count from the end, both
    indices are clamped to the string, an empty range gives [""]. *)
Definition slice (s : jsstring) (start end_ : Z) : jsstring :=
  let len := length s in
  let from := if start <? 0 then Z.max (len + start) 0 else Z.min start len in
  let to := if end_ <? 0 then Z.max (len + end_) 0 else Z.min end_ len in
  firstn (Z.to_nat (to - from)) (skipn (Z.to_nat from) s).

Fixpoint startsWith (pat s : jsstring) : bool :=
  match pat, s with
  | [], _ => true
  | _ :: _, [] => false
  | p :: pat', c :: s' => (N.eqb p c && startsWith pat' s')%bool
  end.

(** The greatest index at or after [i] where [pat] occurs in [s], whose
    first code unit has index [i]; [-1] when there is none. *)
Fixpoint lastIndexOfFrom (pat s : jsstring) (i : Z) : Z :=
  match s with
  | [] => match pat with [] => i | _ :: _ => -1 end
  | _ :: s' =>
      let later := lastIndexOfFrom pat s' (i + 1) in
      if later =? -1 then (if startsWith pat s then i else -1) else later
  end.

(** [s.lastIndexOf(pat)] *)
Definition lastIndexOf (s pat : jsstring) : Z := lastIndexOfFrom pat s 0.

(** [s.split("\n")] *)
Fixpoint splitLines (s : jsstring) : list jsstring :=
  match s with
  | [] => [[]]
  | c :: s' =>
      if N.eqb c LF then [] :: splitLines s'
      else match splitLines s' with
           | l :: ls => (c :: l) :: ls
           | [] => [[c]]
           end
  end.

(** [lines.join("\n")] *)
Fixpoint joinLines (ls : list jsstring) : jsstring :=
  match ls with
  | [] => []
  | [l] => l
  | l :: ls' => l ++ LF :: joinLines ls'
  end.

(** [s.replace(/[class]{n,}/g, repl)] for a character class [p] and
    [1 <= n]: every maximal run of at least [n] code units of the class is
    replaced by [repl]; shorter runs stay.  [run] is the run read so far. *)
Definition flushRun (n : nat) (repl run : jsstring) : jsstring :=
  match run with
  | [] => []
  | _ :: _ => if (n <=? List.length run)%nat then repl else run
  end.

Fixpoint replaceRunsFrom (p : char -> bool) (n : nat) (repl run s : jsstring)
  : jsstring :=
  match s with
  | [] => flushRun n repl run
  | c :: s' =>
      if p c then replaceRunsFrom p n repl (run ++ [c]) s'
      else flushRun n repl run ++ c :: replaceRunsFrom p n repl [] s'
  end.

Definition replaceRuns (p : char -> bool) (n : nat) (repl s : jsstring)
  : jsstring :=
  replaceRunsFrom p n repl [] s.

(** [(s.match(/[class]{n,}/g) || []).length]: the number of maximal runs
    of at least [n] code units of the class.  [run] is the length of the
    run read so far. *)
Definition countRun (n run : nat) : Z :=
  if ((1 <=? run) && (n <=? run))%nat%bool then 1 else 0.

Fixpoint countRunsFrom (p : char -> bool) (n run : nat) (s : jsstring) : Z :=
  match s with
  | [] => countRun n run
  | c :: s' =>
      if p c then countRunsFrom p n (S run) s'
      else countRun n run + countRunsFrom p n 0 s'
  end.

Definition countRuns (p : char -> bool) (n : nat) (s : jsstring) : Z :=
  countRunsFrom p n 0 s.

(** [(s.match(/[class]/g) || []).length] *)
Definition countChars (p : char -> bool) (s : jsstring) : Z :=
  Z.of_nat (List.length (filter p s)).

End JS.

Import JS.

(* ------------------------------------------------------------------ *)
(** ** Configuration *)
(* ------------------------------------------------------------------ *)

Module CONFIG.
Definition MIN_TEXT_LENGTH : Z := 50.
Definition MIN_LETTER_RATIO : Q := 15 # 100.
Definition CHUNK_SIZE : Z := 6000.
Definition CHUNK_OVERLAP : Z := 500.
End CONFIG.

(* ------------------------------------------------------------------ *)
(** ** The text normalizer *)
(* ------------------------------------------------------------------ *)

(** [[\x00-\x09\x0B\x0C\x0E-\x1F\x7F]] *)
Definition isControl (c : char) : bool :=
  (inRange 0x00 0x09 c || N.eqb c 0x0B || N.eqb c 0x0C
   || inRange 0x0E 0x1F c || N.eqb c 0x7F)%bool.

(** [[ \t]] *)
Definition isSpaceTab (c : char) : bool := (N.eqb c 0x20 || N.eqb c 0x09)%bool.

Definition isNewline (c : char) : bool := N.eqb c LF.

Definition cleanText (text : jsstring) : jsstring :=
  match text with
  | [] => []
  | _ :: _ =>
      trim
        (joinLines
           (map trim
              (splitLines
                 (replaceRuns isNewline 3 [LF; LF]
                    (replaceRuns isSpaceTab 1 [SPACE]
                       (replaceRuns isControl 1 [] text))))))
  end.

(* ------------------------------------------------------------------ *)
(** ** The quality classifier *)
(* ------------------------------------------------------------------ *)

(** [[\u0600-\u06FF\u0750-\u077F\u08A0-\u08FF]] *)
Definition isArabicLetter (c : char) : bool :=
  (inRange 0x0600 0x06FF c || inRange 0x0750 0x077F c
   || inRange 0x08A0 0x08FF c)%bool.

(** [[a-zA-Z\u00C0-\u00FF]] *)
Definition isLatinLetter (c : char) : bool :=
  (inRange 0x61 0x7A c || inRange 0x41 0x5A c || inRange 0xC0 0xFF c)%bool.

(** [[0-9]] *)
Definition isDigit (c : char) : bool := inRange 0x30 0x39 c.

(** [[\u0600-\u06FF\u0750-\u077F]], the class of the Arabic word pattern. *)
Definition isArabicWordChar (c : char) : bool :=
  (inRange 0x0600 0x06FF c || inRange 0x0750 0x077F c)%bool.

(** [a < b] on numbers. *)
Definition Qltb (a b : Q) : bool := negb (Qle_bool b a).

Definition totalLetters (text : jsstring) : Z :=
  countChars isArabicLetter text + countChars isLatinLetter text.

Definition digits (text : jsstring) : Z := countChars isDigit text.

Definition letterRatio (text : jsstring) : Q :=
  inject_Z (totalLetters text) / inject_Z (length text).

Definition digitRatio (text : jsstring) : Q :=
  inject_Z (digits text) / inject_Z (length text).

Definition totalWords (text : jsstring) : Z :=
  countRuns isArabicWordChar 3 text + countRuns isLatinLetter 3 text.

Definition expectedWords (text : jsstring) : Q := inject_Z (length text) / 10.

(** The first ratio check: [digitRatio > 0.5 && letterRatio < 0.15]. *)
Definition digitDominated (text : jsstring) : bool :=
  (Qltb (5 # 10) (digitRatio text) && Qltb (letterRatio text) (15 # 100))%bool.

(** The second ratio check: [letterRatio < CONFIG.MIN_LETTER_RATIO]. *)
Definition tooFewLetters (text : jsstring) : bool :=
  Qltb (letterRatio text) CONFIG.MIN_LETTER_RATIO.

(** The density check: [totalWords < expectedWords * 0.1]. *)
Definition tooSparse (text : jsstring) : bool :=
  Qltb (inject_Z (totalWords text)) (expectedWords text * (1 # 10)).

Definition containsRealWords (text : jsstring) : bool :=
  if length text <? 20 then false
  else if digitDominated text then false
  else if tooFewLetters text then false
  else if tooSparse text then false
  else true.

Definition isTextQualityGood (text : jsstring) : bool :=
  if length (trim text) <? CONFIG.MIN_TEXT_LENGTH then false
  else containsRealWords text.

(* ------------------------------------------------------------------ *)
(** ** The chunker *)
(* ------------------------------------------------------------------ *)

(** [Math.max(...l)] for a non-empty list of integers. *)
Definition maxOf (l : list Z) : Z :=
  match l with
  | [] => 0
  | x :: l' => fold_left Z.max l' x
  end.

(** The break points found in the search zone, [-1] results removed. *)
Definition breakPoints (searchZone : jsstring) : list Z :=
  filter (fun i => negb (i =? -1))
    [ lastIndexOf searchZone (lit ". ");
      lastIndexOf searchZone [0x2E%N; LF];
      lastIndexOf searchZone [LF; LF] ].

(** The value of [endIndex] when the chunk is cut, lines 85 to 101. *)
Definition chunkEnd (text : jsstring) (startIndex : Z) : Z :=
  let endIndex := startIndex + CONFIG.CHUNK_SIZE in
  if endIndex <? length text then
    let searchStart :=
      Z.max (startIndex + CONFIG.CHUNK_SIZE - 200) startIndex in
    let searchEnd :=
      Z.min (startIndex + CONFIG.CHUNK_SIZE + 200) (length text) in
    let searchZone := slice text searchStart searchEnd in
    match breakPoints searchZone with
    | [] => endIndex
    | bps => searchStart + maxOf bps + 1
    end
  else endIndex.

(** The value of [startIndex] after the iteration, lines 106 and 107. *)
Definition nextStart (text : jsstring) (endIndex : Z) : Z :=
  let startIndex := endIndex - CONFIG.CHUNK_OVERLAP in
  if ((startIndex <=? 0) || (length text - 100 <=? startIndex))%bool
  then endIndex else startIndex.

(** [chunks.push(chunk)] when the chunk is not empty. *)
Definition pushChunk (chunks : list jsstring) (chunk : jsstring)
  : list jsstring :=
  if 0 <? length chunk then chunks ++ [chunk] else chunks.

(** The [while] loop.  Each unit of fuel pays for one iteration; [None]
    means that the fuel ran out before the loop condition became false. *)
Fixpoint chunkLoop (fuel : nat) (text : jsstring) (startIndex : Z)
  (chunks : list jsstring) : option (list jsstring) :=
  if startIndex <? length text then
    match fuel with
    | O => None
    | S fuel' =>
        let endIndex := chunkEnd text startIndex in
        let chunk := trim (slice text startIndex endIndex) in
        chunkLoop fuel' text (nextStart text endIndex) (pushChunk chunks chunk)
    end
  else Some chunks.

(** [chunkText], run with as many units of fuel as the text has code
    units. *)
Definition chunkText (text : jsstring) : option (list jsstring) :=
  if length text =? 0 then Some []
  else if length text <=? CONFIG.CHUNK_SIZE then Some [text]
  else chunkLoop (List.length text) text 0 [].


(* ------------------------------------------------------------------ *)
(** ** The extraction entry points *)
(* ------------------------------------------------------------------ *)

Record PdfExtractionResult : Type := {
  fullText : jsstring;
  chunks : list jsstring;
  pagesProcessed : Z;
  ocrUsed : bool
}.

(** What [pdf-parse] resolves to: the fields the code reads, each of which
    may be missing. *)
Record PdfData : Type := {
  text : option jsstring;
  numpages : option Z
}.

(** [data.text || ""] *)
Definition textOrEmpty (data : PdfData) : jsstring :=
  match text data with
  | Some t => t
  | None => []
  end.

(** [data.numpages || 1] *)
Definition numpagesOrOne (data : PdfData) : Z :=
  match numpages data with
  | Some n => if n =? 0 then 1 else n
  | None => 1
  end.

Section Orchestrator.

(** The state of the outside world, the buffer type and the type of the
    thrown values. *)
Variables (World Buffer Error : Type).

(** How a call ends: normally with a value, or by throwing. *)
Inductive completion (A : Type) : Type :=
| Normal (a : A)
| Throw (e : Error).

Arguments Normal {A} a.
Arguments Throw {A} e.

(** A computation reads and changes the world.  [None] stands for a
    computation that does not end (the chunker ran out of fuel). *)
Definition M (A : Type) : Type := World -> option (completion A * World).

Definition ret {A} (a : A) : M A := fun w => Some (Normal a, w).

Definition bind {A B} (m : M A) (k : A -> M B) : M B :=
  fun w =>
    match m w with
    | None => None
    | Some (Normal a, w') => k a w'
    | Some (Throw e, w') => Some (Throw e, w')
    end.

(** [try { m } catch (error) { h error }] *)
Definition tryCatch {A} (m : M A) (h : Error -> M A) : M A :=
  fun w =>
    match m w with
    | None => None
    | Some (Normal a, w') => Some (Normal a, w')
    | Some (Throw e, w') => h e w'
    end.

Definition ending {A} (o : option A) : M A :=
  fun w =>
    match o with
    | Some a => Some (Normal a, w)
    | None => None
    end.

Notation "x <- m ;; k" := (bind m (fun x => k))
  (at level 61, m at next level, right associativity).

(** The external parser, [pdf(pdfBuffer)]. *)
Variable pdf : Buffer -> M PdfData.

Definition runOcrOnPdf (pdfBuffer : Buffer) (highPrecision : bool)
  : M jsstring :=
  tryCatch
    (data <- pdf pdfBuffer ;;
     let text := textOrEmpty data in
     ret text)
    (fun _ => ret []).

Definition extractPdfText (pdfBuffer : Buffer) (highPrecision : bool)
  : M PdfExtractionResult :=
  tryCatch
    (data <- pdf pdfBuffer ;;
     let text := textOrEmpty data in
     let numPages := numpagesOrOne data in
     chosen <-
       (if negb (isTextQualityGood text) then
          ocrText <- runOcrOnPdf pdfBuffer highPrecision ;;
          if length text <? length ocrText then ret (ocrText, true)
          else ret (text, false)
        else ret (text, false)) ;;
     let cleanedText := cleanText (fst chosen) in
     chunks <- ending (chunkText cleanedText) ;;
     ret {| fullText := cleanedText;
            chunks := chunks;
            pagesProcessed := numPages;
            ocrUsed := snd chosen |})
    (fun _ =>
       ret {| fullText := []; chunks := []; pagesProcessed := 0;
              ocrUsed := false |}).

Definition extractPdfWithOcr (pdfBuffer : Buffer) (highPrecision : bool)
  : M PdfExtractionResult :=
  tryCatch
    (text <- runOcrOnPdf pdfBuffer highPrecision ;;
     let cleanedText := cleanText text in
     chunks <- ending (chunkText cleanedText) ;;
     data <- pdf pdfBuffer ;;
     let numPages := numpagesOrOne data in
     ret {| fullText := cleanedText;
            chunks := chunks;
            pagesProcessed := numPages;
            ocrUsed := true |})
    (fun _ =>
       ret {| fullText := []; chunks := []; pagesProcessed := 0;
              ocrUsed := true |}).

End Orchestrator.

Arguments Normal {Error A} a.
Arguments Throw {Error A} e.
Arguments ret {World Error A} a.
Arguments bind {World Error A B} m k.
Arguments tryCatch {World Error A} m h.
Arguments ending {World Error A} o.
Arguments runOcrOnPdf {World Buffer Error} pdf pdfBuffer highPrecision.
Arguments extractPdfText {World Buffer Error} pdf pdfBuffer highPrecision.
Arguments extractPdfWithOcr {World Buffer Error} pdf pdfBuffer highPrecision.

(* ------------------------------------------------------------------ *)
(** ** The OCR worker *)
(* ------------------------------------------------------------------ *)

Notation "x <- m ;; k" := (bind m (fun x => k))
  (at level 61, m at next level, right associativity).

Section OcrWorker.

(** The outside world, the thrown values, the Tesseract worker, the image
    pipeline of [sharp] and the buffers. *)
Variables (World Error Worker Image Buffer : Type).

(** The state of the module: the outside world and the variable
    [ocrWorker], [None] for [null]. *)
Definition OcrModule : Type := (World * option Worker)%type.

(** The collaborators are parameters.  [createWorker], [terminate],
    [recognize] and [toBuffer] return promises that the code awaits: the
    call is suspended until the promise is settled, and other calls to the
    functions of this module run in between.  Such a collaborator is
    therefore a transition of the whole state of the module, from the call
    to the point where the caller runs again: it tells what has become of
    the world and of [ocrWorker] in the meantime.  The constructor [sharp]
    and its builders are synchronous. *)
Variable createWorker : jsstring -> Z -> jsstring -> M OcrModule Error Worker.
Variable terminate : Worker -> M OcrModule Error unit.
Variable recognize : Worker -> Buffer -> M OcrModule Error (option jsstring).
Variable sharp : Buffer -> M World Error Image.
Variables grayscale normalize sharpen png : Image -> Image.
Variable toBuffer : Image -> M OcrModule Error Buffer.

(** A call during which nothing else runs leaves [ocrWorker] alone. *)
Definition external {A} (m : M World Error A) : M OcrModule Error A :=
  fun s =>
    match m (fst s) with
    | None => None
    | Some (c, w') => Some (c, (w', snd s))
    end.

(** An awaited call [m] during whose suspension another call [other] to
    this module runs from its start to its end. *)
Definition overlappedBy {A B} (m : M World Error A)
  (other : M OcrModule Error B) : M OcrModule Error A :=
  fun s =>
    match m (fst s) with
    | None => None
    | Some (c, w') =>
        match other (w', snd s) with
        | None => None
        | Some (_, s') => Some (c, s')
        end
    end.

Definition readOcrWorker : M OcrModule Error (option Worker) :=
  fun s => Some (Normal (snd s), s).

Definition writeOcrWorker (o : option Worker) : M OcrModule Error unit :=
  fun s => Some (Normal tt, (fst s, o)).

Definition getOcrWorker : M OcrModule Error Worker :=
  cached <- readOcrWorker ;;
  match cached with
  | Some worker => ret worker
  | None =>
      worker <- createWorker (lit "ara+fra") 1
                  (lit "https://tessdata.projectnaptha.com/4.0.0") ;;
      _ <- writeOcrWorker (Some worker) ;;
      ret worker
  end.

Definition runOcr (imageBuffer : Buffer) (highPrecision : bool)
  : M OcrModule Error jsstring :=
  tryCatch
    (worker <- getOcrWorker ;;
     processedImage <- external (sharp imageBuffer) ;;
     let processedImage :=
       if negb highPrecision
       then sharpen (normalize (grayscale processedImage))
       else processedImage in
     finalBuffer <- toBuffer (png processedImage) ;;
     result <- recognize worker finalBuffer ;;
     ret (match result with Some t => t | None => [] end))
    (fun _ => ret []).

Definition terminateOcrWorker : M OcrModule Error unit :=
  cached <- readOcrWorker ;;
  match cached with
  | Some worker =>
      _ <- terminate worker ;;
      writeOcrWorker None
  | None => ret tt
  end.

End OcrWorker.

Arguments external {World Error Worker A} m.
Arguments overlappedBy {World Error Worker A B} m other.
Arguments readOcrWorker {World Error Worker}.
Arguments writeOcrWorker {World Error Worker} o.
Arguments getOcrWorker {World Error Worker} createWorker.
Arguments runOcr {World Error Worker Image Buffer} createWorker recognize
  sharp grayscale normalize sharpen png toBuffer imageBuffer highPrecision.
Arguments terminateOcrWorker {World Error Worker} terminate.

(* ------------------------------------------------------------------ *)
(** ** The routes that extract, [src/index.ts] *)
(* ------------------------------------------------------------------ *)

(** [req.file] as [multer] fills it in. *)
Record UploadedFile (Buffer : Type) : Type := {
  buffer : Buffer;
  originalname : jsstring;
  size : Z
}.
Arguments buffer {Buffer} u.

(** What the routes read of a request: the uploaded file, if any, and the
    text fields of the form, each a string or missing. *)
Record UploadRequest (Buffer : Type) : Type := {
  file : option (UploadedFile Buffer);
  body_highPrecision : option jsstring;
  body_forceOcr : option jsstring;
  body_language : option jsstring
}.
Arguments file {Buffer} u.
Arguments body_highPrecision {Buffer} u.
Arguments body_forceOcr {Buffer} u.
Arguments body_language {Buffer} u.

(** The JSON bodies the two routes send. *)
Inductive ResponseBody : Type :=
| ErrorBody (error : jsstring)
| ExtractBody (success : bool) (fullText : jsstring)
    (chunks : list jsstring) (pagesProcessed : Z) (ocrUsed : bool)
    (processingTime : Z)
| AnalyzeBody (success : bool) (fullText : jsstring)
    (chunks : list jsstring) (analysis : jsstring) (ocrUsed : bool).

(** [res.status(status).json(body)]; [res.json(body)] sends status 200. *)
Record Response : Type := {
  status : Z;
  body : ResponseBody
}.

Fixpoint jsstring_eqb (s t : jsstring) : bool :=
  match s, t with
  | [], [] => true
  | c :: s', d :: t' => (N.eqb c d && jsstring_eqb s' t')%bool
  | _, _ => false
  end.

(** [field === "true"] *)
Definition isTrue (field : option jsstring) : bool :=
  match field with
  | Some s => jsstring_eqb s (lit "true")
  | None => false
  end.

(** [value || fallback] on an optional string *)
Definition orElse (value : option jsstring) (fallback : jsstring)
  : jsstring :=
  match value with
  | Some (c :: s) => c :: s
  | Some [] | None => fallback
  end.

Section Handlers.

Variables (World Buffer Error : Type).
Variable pdf : Buffer -> M World Error PdfData.
Variable analyzeDocument : jsstring -> jsstring -> M World Error jsstring.
Variable message : Error -> option jsstring.
Variable clock : World -> Z.

(** [Date.now()] reads the clock of the world. *)
Definition now : M World Error Z := fun w => Some (Normal (clock w), w).

Definition respond (status : Z) (body : ResponseBody)
  : M World Error Response :=
  ret {| status := status; body := body |}.

(** [POST /api/extract] *)
Definition apiExtract (req : UploadRequest Buffer) : M World Error Response :=
  tryCatch
    (match file req with
     | None => respond 400 (ErrorBody (lit "Aucun fichier fourni"))
     | Some f =>
         let highPrecision := isTrue (body_highPrecision req) in
         let forceOcr := isTrue (body_forceOcr req) in
         startTime <- now ;;
         result <-
           (if forceOcr then extractPdfWithOcr pdf (buffer f) highPrecision
            else extractPdfText pdf (buffer f) highPrecision) ;;
         endTime <- now ;;
         let duration := endTime - startTime in
         respond 200
           (ExtractBody true (fullText result)
              (chunks result) (pagesProcessed result)
              (ocrUsed result) duration)
     end)
    (fun error =>
       respond 500
         (ErrorBody (orElse (message error) (lit "Erreur extraction PDF")))).

(** [POST /api/analyze]; [analyzeDocument] of [deepseekService.ts] and
    [error.message] are parameters. *)
Definition apiAnalyze (req : UploadRequest Buffer) : M World Error Response :=
  tryCatch
    (match file req with
     | None => respond 400 (ErrorBody (lit "Aucun fichier fourni"))
     | Some f =>
         let language := orElse (body_language req) (lit "fr") in
         let highPrecision := isTrue (body_highPrecision req) in
         extraction <- extractPdfText pdf (buffer f) highPrecision ;;
         if length (fullText extraction) <? 50 then
           respond 400
             (ErrorBody (lit "Aucun texte d" ++ [0xE9%N] ++ lit "tect"
                         ++ [0xE9%N] ++ lit " dans le PDF"))
         else
           analysis <- analyzeDocument (fullText extraction)
                         language ;;
           respond 200
             (AnalyzeBody true (fullText extraction)
                (chunks extraction) analysis
                (ocrUsed extraction))
     end)
    (fun error =>
       respond 500
         (ErrorBody (orElse (message error) (lit "Erreur analyse document")))).

End Handlers.

Arguments now {World Error} clock.
Arguments respond {World Error} status body.
Arguments apiExtract {World Buffer Error} pdf message clock req.
Arguments apiAnalyze {World Buffer Error} pdf analyzeDocument message req.

(* ------------------------------------------------------------------ *)
(** ** Vocabulary of the statements *)
(* ------------------------------------------------------------------ *)

(** Position [i] of [text] lies inside an occurrence of one of the chunks
    [cs]: some chunk is the substring of [text] that starts after [pre],
    and [i] falls within it. *)
Definition covered (text : jsstring) (cs : list jsstring) (i : nat) : Prop :=
  exists pre chunk post,
    In chunk cs
    /\ text = pre ++ chunk ++ post
    /\ (List.length pre <= i < List.length pre + List.length chunk)%nat.

(** Position [i] of [text] holds a code unit that is not whitespace, or
    lies between two such code units that are at most [CHUNK_OVERLAP]
    positions apart. *)
Definition anchored (text : jsstring) (i : nat) : Prop :=
  exists j k cj ck,
    (j <= i <= k)%nat
    /\ Z.of_nat k - Z.of_nat j <= CONFIG.CHUNK_OVERLAP
    /\ nth_error text j = Some cj /\ isWhiteSpace cj = false
    /\ nth_error text k = Some ck /\ isWhiteSpace ck = false.

(** The newline collapse read from left to right: a newline is dropped
    when at least two newlines stand right before it.  [seen] counts the
    newlines just read. *)
Fixpoint collapseFrom (seen : nat) (s : jsstring) : jsstring :=
  match s with
  | [] => []
  | c :: s' =>
      if isNewline c then
        if (seen <? 2)%nat then c :: collapseFrom (S seen) s'
        else collapseFrom (S seen) s'
      else c :: collapseFrom 0 s'
  end.

(** Every two neighbours of [s] are related by [R]. *)
Fixpoint adjacent (R : char -> char -> Prop) (s : jsstring) : Prop :=
  match s with
  | a :: (b :: _) as t => R a b /\ adjacent R t
  | _ => True
  end.

(** No two spaces or tabs side by side. *)
Definition spacesApart (a b : char) : Prop :=
  isSpaceTab a = true -> isSpaceTab b = false.

(** Beside a newline, the only whitespace is a newline. *)
Definition newlineTight (a b : char) : Prop :=
  (isNewline a = true -> isWhiteSpace b = true -> isNewline b = true)
  /\ (isNewline b = true -> isWhiteSpace a = true -> isNewline a = true).

(* ------------------------------------------------------------------ *)
(** ** Sample inputs *)
(* ------------------------------------------------------------------ *)

(** ["a\n \n \nb"]: two lines that hold one space each between two words. *)
Definition blankLinesText : jsstring :=
  lit "a" ++ [LF; SPACE; LF; SPACE; LF] ++ lit "b".

(** 5400 letters, a run of 700 no-break spaces, 1000 letters. *)
Definition nbspRunText : jsstring :=
  repeat 0x61%N (Z.to_nat 5400) ++ repeat NBSP (Z.to_nat 700)
  ++ repeat 0x62%N (Z.to_nat 1000).

(** 5999 letters, a space where the first window is cut, 1000 letters. *)
Definition spaceAtCutText : jsstring :=
  repeat 0x61%N (Z.to_nat 5999) ++ [SPACE] ++ repeat 0x62%N (Z.to_nat 1000).

(** Three letters among twenty code units: a letter ratio of 0.15. *)
Definition boundaryText : jsstring := lit "abc-----------------".

(** A parser that answers its first call and throws at every later one;
    the world counts the calls. *)
Definition failsOnSecondCall (data : PdfData) (_ : unit)
  : M nat unit PdfData :=
  fun calls =>
    match calls with
    | O => Some (Normal data, S calls)
    | S _ => Some (Throw tt, S calls)
    end.

(** A parser that answers its first call with [first] and every later
    call with [later]. *)
Definition changesAnswer (first later : PdfData) (_ : unit)
  : M nat unit PdfData :=
  fun calls =>
    match calls with
    | O => Some (Normal first, S calls)
    | S _ => Some (Normal later, S calls)
    end.

(** A parser without state: the buffer is the text of a one-page file. *)
Definition echoParser (buffer : jsstring) : M unit unit PdfData :=
  fun w => Some (Normal {| text := Some buffer; numpages := Some 1 |}, w).

(** A parser that rejects every buffer. *)
Definition rejectingParser (_ : jsstring) : M unit unit PdfData :=
  fun w => Some (Throw tt, w).

(** Parser answers for the scenarios of the length tie-break. *)
Definition digits200 : PdfData :=
  {| text := Some (repeat 0x37%N 200); numpages := Some 2 |}.

Definition letters100 : PdfData :=
  {| text := Some (repeat 0x61%N 100); numpages := Some 2 |}.

Definition digits50 : PdfData :=
  {| text := Some (repeat 0x37%N 50); numpages := Some 2 |}.

Definition letters500 : PdfData :=
  {| text := Some (repeat 0x61%N 500); numpages := Some 2 |}.

Definition threePages : PdfData :=
  {| text := Some (lit "Bonjour le monde"); numpages := Some 3 |}.

(** A space, a newline, a no-break space, a carriage return. *)
Definition blankText : jsstring := [SPACE; LF; NBSP; 0x0D%N].

Definition proseText : jsstring :=
  lit "Le tribunal a statue sur la demande du bailleur et condamne le preneur.".

(** A space and 6000 letters: one code unit more than [CHUNK_SIZE]. *)
Definition longText : jsstring := lit " " ++ repeat 0x61%N (Z.to_nat 6000).

(** Collaborators of the OCR worker over a world that counts the calls:
    the worker created by the n-th call is the worker n. *)
Definition countingCreate (_ : jsstring) (_ : Z) (_ : jsstring)
  : M nat unit nat :=
  fun calls => Some (Normal calls, S calls).

Definition failingCreate (_ : jsstring) (_ : Z) (_ : jsstring)
  : M nat unit nat :=
  fun calls => Some (Throw tt, S calls).

Definition countingTerminate (_ : nat) : M nat unit unit :=
  fun calls => Some (Normal tt, S calls).

Definition failingTerminate (_ : nat) : M nat unit unit :=
  fun calls => Some (Throw tt, S calls).

(** The same creations, awaited while no other call runs. *)
Definition quietCreate (langs : jsstring) (oem : Z) (langPath : jsstring)
  : M (OcrModule nat nat) unit nat :=
  external (countingCreate langs oem langPath).

(** A creation during whose await a second call to [getOcrWorker] runs. *)
Definition racingCreate (langs : jsstring) (oem : Z) (langPath : jsstring)
  : M (OcrModule nat nat) unit nat :=
  overlappedBy (countingCreate langs oem langPath) (getOcrWorker quietCreate).

(** A creation that fails, during whose await a second call succeeds. *)
Definition racingFailingCreate (langs : jsstring) (oem : Z)
  (langPath : jsstring) : M (OcrModule nat nat) unit nat :=
  overlappedBy (failingCreate langs oem langPath) (getOcrWorker quietCreate).

(** A termination during whose await a call to [getOcrWorker] runs, which
    finds the worker still in place. *)
Definition racingTerminate (worker : nat) : M (OcrModule nat nat) unit unit :=
  overlappedBy (countingTerminate worker) (getOcrWorker quietCreate).

(** A termination that fails, during whose await a second, successful
    call to [terminateOcrWorker] runs. *)
Definition racingFailingTerminate (worker : nat)
  : M (OcrModule nat nat) unit unit :=
  overlappedBy (failingTerminate worker)
    (terminateOcrWorker (fun k => external (countingTerminate k))).

(** An upload whose buffer [echoParser] reads as [proseText], with no form
    field. *)
Definition plainUpload : UploadRequest jsstring :=
  {| file := Some {| buffer := proseText; originalname := lit "bail.pdf";
                     size := 71 |};
     body_highPrecision := None;
     body_forceOcr := None;
     body_language := None |}.

(** What both paths make of [proseText] on one page. *)
Definition proseResult (ocrUsed : bool) : PdfExtractionResult :=
  {| fullText := proseText; chunks := [proseText]; pagesProcessed := 1;
     ocrUsed := ocrUsed |}.

(** The result of a failed extraction. *)
Definition emptyResult (ocrUsed : bool) : PdfExtractionResult :=
  {| fullText := []; chunks := []; pagesProcessed := 0; ocrUsed := ocrUsed |}.

Definition noMessage (_ : unit) : option jsstring := None.

Definition stoppedClock (_ : unit) : Z := 0.

Definition echoAnalysis (documentText language : jsstring)
  : M unit unit jsstring :=
  fun w => Some (Normal documentText, w).

(* ------------------------------------------------------------------ *)
(** ** Facts about the string primitives *)
(* ------------------------------------------------------------------ *)

Section StringFacts.

Lemma length_nonneg (s : jsstring) : 0 <= length s.
Proof. unfold length. lia. Qed.

Lemma length_app (s t : jsstring) : length (s ++ t) = length s + length t.
Proof. unfold length. rewrite List.length_app. lia. Qed.

Lemma dropWhile_split (p : char -> bool) (s : jsstring) :
  exists pre, s = pre ++ dropWhile p s /\ Forall (fun c => p c = true) pre.
Proof.
  induction s as [|c s IH]; simpl.
  - exists []. split; [reflexivity | constructor].
  - destruct (p c) eqn:Hc.
    + destruct IH as (pre & Heq & Hall).
      exists (c :: pre). split.
      * simpl. now rewrite <- Heq.
      * now constructor.
    + exists []. split; [reflexivity | constructor].
Qed.

Lemma dropWhile_head (p : char -> bool) (s : jsstring) :
  match dropWhile p s with
  | [] => True
  | c :: _ => p c = false
  end.
Proof.
  induction s as [|c s IH]; simpl; [exact I|].
  destruct (p c) eqn:Hc; [exact IH | exact Hc].
Qed.

Lemma dropWhile_fixed (p : char -> bool) (s : jsstring) :
  match s with [] => True | c :: _ => p c = false end ->
  dropWhile p s = s.
Proof.
  destruct s as [|c s]; simpl; [reflexivity|].
  now intros ->.
Qed.

Lemma trimEnd_split (s : jsstring) :
  exists post,
    s = trimEnd s ++ post /\ Forall (fun c => isWhiteSpace c = true) post.
Proof.
  induction s as [|c s IH]; simpl.
  - exists []. split; [reflexivity | constructor].
  - destruct IH as (post & Hs & Hpost).
    destruct (trimEnd s) as [|d t] eqn:Et.
    + simpl in Hs. subst post.
      destruct (isWhiteSpace c) eqn:Hc.
      * exists (c :: s). split; [reflexivity | now constructor].
      * exists s. split; [reflexivity | exact Hpost].
    + exists post. split; [|exact Hpost]. simpl. f_equal. exact Hs.
Qed.

(** [trimEnd] keeps the first code unit of a string that does not start
    with whitespace. *)
Lemma trimEnd_head (c : char) (s : jsstring) :
  isWhiteSpace c = false -> exists t, trimEnd (c :: s) = c :: t.
Proof.
  intros Hc. simpl. rewrite Hc.
  destruct (trimEnd s) as [|d t]; [now exists [] | now exists (d :: t)].
Qed.

Lemma trimEnd_idempotent (s : jsstring) : trimEnd (trimEnd s) = trimEnd s.
Proof.
  induction s as [|c s IH]; simpl; [reflexivity|].
  destruct (trimEnd s) as [|d t] eqn:Et.
  - destruct (isWhiteSpace c) eqn:Hc; simpl; [reflexivity | now rewrite Hc].
  - change (trimEnd (c :: d :: t)) with
      (match trimEnd (d :: t) with
       | [] => if isWhiteSpace c then [] else [c]
       | u => c :: u
       end).
    now rewrite IH.
Qed.

(** [trim] removes a whitespace prefix and a whitespace suffix. *)
Lemma trim_split (s : jsstring) :
  exists pre post,
    s = pre ++ trim s ++ post
    /\ Forall (fun c => isWhiteSpace c = true) pre
    /\ Forall (fun c => isWhiteSpace c = true) post.
Proof.
  unfold trim, trimStart.
  destruct (dropWhile_split isWhiteSpace s) as (pre & Hs & Hpre).
  destruct (trimEnd_split (dropWhile isWhiteSpace s)) as (post & Hq & Hpost).
  exists pre, post. repeat split; try assumption.
  rewrite <- Hq. exact Hs.
Qed.

Lemma length_trim_le (s : jsstring) : length (trim s) <= length s.
Proof.
  destruct (trim_split s) as (pre & post & Hs & _).
  rewrite Hs at 2. rewrite !length_app.
  pose proof (length_nonneg pre). pose proof (length_nonneg post). lia.
Qed.

(** A trimmed string does not start with whitespace. *)
Lemma trim_head (s : jsstring) :
  match trim s with
  | [] => True
  | c :: _ => isWhiteSpace c = false
  end.
Proof.
  unfold trim, trimStart.
  pose proof (dropWhile_head isWhiteSpace s) as Hh.
  destruct (dropWhile isWhiteSpace s) as [|c u]; [exact I|].
  destruct (trimEnd_head c u Hh) as (t & ->). exact Hh.
Qed.

Lemma trim_idempotent (s : jsstring) : trim (trim s) = trim s.
Proof.
  pose proof (trim_head s) as Hh.
  unfold trim at 1. unfold trimStart.
  rewrite (dropWhile_fixed _ (trim s) Hh).
  unfold trim. apply trimEnd_idempotent.
Qed.

Lemma slice_length_le (s : jsstring) (a b : Z) :
  0 <= a -> 0 <= b -> length (slice s a b) <= Z.max 0 (b - a).
Proof.
  intros Ha Hb. unfold slice, length.
  rewrite List.length_firstn, List.length_skipn.
  destruct (a <? 0) eqn:Ea; [apply Z.ltb_lt in Ea; lia|].
  destruct (b <? 0) eqn:Eb; [apply Z.ltb_lt in Eb; lia|].
  lia.
Qed.

(** Inside the string, a slice is the middle of a three-part split. *)
Lemma slice_split (s : jsstring) (a b : Z) :
  0 <= a <= b ->
  exists pre post,
    s = pre ++ slice s a b ++ post
    /\ length pre = Z.min a (length s)
    /\ length (slice s a b) = Z.min b (length s) - Z.min a (length s).
Proof.
  intros Hab. unfold slice.
  destruct (a <? 0) eqn:Ea; [apply Z.ltb_lt in Ea; lia|].
  destruct (b <? 0) eqn:Eb; [apply Z.ltb_lt in Eb; lia|].
  set (from := Z.min a (length s)). set (to := Z.min b (length s)).
  exists (firstn (Z.to_nat from) s),
         (skipn (Z.to_nat (to - from)) (skipn (Z.to_nat from) s)).
  assert (Hf : (Z.to_nat from <= List.length s)%nat)
    by (unfold from, length; lia).
  repeat split.
  - now rewrite firstn_skipn, firstn_skipn.
  - unfold length at 1. rewrite List.length_firstn. unfold from, length. lia.
  - unfold length at 1. rewrite List.length_firstn, List.length_skipn.
    unfold from, to, length. lia.
Qed.

Lemma lastIndexOfFrom_range (pat s : jsstring) (i : Z) :
  lastIndexOfFrom pat s i = -1
  \/ i <= lastIndexOfFrom pat s i <= i + length s - length pat.
Proof.
  revert i. induction s as [|c s IH]; intros i; simpl.
  - destruct pat; [right; unfold length; simpl; lia | now left].
  - destruct (IH (i + 1)) as [E | R].
    + rewrite E. simpl.
      destruct (startsWith pat (c :: s)) eqn:Hsw; [right | now left].
      split; [lia|].
      assert (length pat <= length (c :: s)); [|lia].
      clear - Hsw. revert Hsw. generalize (c :: s) as t.
      induction pat as [|p pat IHp]; intros t Hsw.
      * apply length_nonneg.
      * destruct t as [|d t]; [discriminate|]. simpl in Hsw.
        apply andb_prop in Hsw as [_ Hsw]. apply IHp in Hsw.
        unfold length in *. simpl List.length. lia.
    + destruct (lastIndexOfFrom pat s (i + 1) =? -1) eqn:E.
      * apply Z.eqb_eq in E. rewrite E in R. 
        destruct (startsWith pat (c :: s)); [|now left].
        right. unfold length in *. simpl List.length. lia.
      * right. unfold length in *. simpl List.length. lia.
Qed.

Lemma fold_left_max_range (l : list Z) (x lo hi : Z) :
  lo <= x <= hi -> Forall (fun y => lo <= y <= hi) l ->
  lo <= fold_left Z.max l x <= hi.
Proof.
  revert x. induction l as [|y l IH]; intros x Hx Hl; simpl; [exact Hx|].
  inversion Hl; subst. apply IH; [lia | assumption].
Qed.

Lemma maxOf_range (l : list Z) (lo hi : Z) :
  l <> [] -> Forall (fun y => lo <= y <= hi) l -> lo <= maxOf l <= hi.
Proof.
  destruct l as [|x l]; [congruence|]. intros _ Hl.
  inversion Hl; subst. now apply fold_left_max_range.
Qed.

End StringFacts.

(* ------------------------------------------------------------------ *)
(** ** Facts about the chunker *)
(* ------------------------------------------------------------------ *)

Section ChunkerFacts.

Lemma lastIndexOf_range (zone pat : jsstring) :
  lastIndexOf zone pat = -1
  \/ 0 <= lastIndexOf zone pat <= length zone - length pat.
Proof.
  unfold lastIndexOf.
  destruct (lastIndexOfFrom_range pat zone 0) as [E | R]; [now left | right].
  lia.
Qed.

Lemma breakPoints_range (zone : jsstring) :
  Forall (fun y => 0 <= y <= length zone - 2) (breakPoints zone).
Proof.
  unfold breakPoints. simpl filter.
  repeat match goal with
  | |- context [negb (lastIndexOf zone ?pat =? -1)] =>
      let E := fresh "E" in
      destruct (lastIndexOf_range zone pat) as [E | E];
      [ rewrite E; simpl negb; cbv iota
      | destruct (lastIndexOf zone pat =? -1); simpl negb; cbv iota;
        [| apply Forall_cons; [exact E|]] ]
  end; try apply Forall_nil.
Qed.

(** The cut lies at least 5801 code units after the start of the window. *)
Lemma chunkEnd_lower (text : jsstring) (startIndex : Z) :
  startIndex + 5801 <= chunkEnd text startIndex.
Proof.
  unfold chunkEnd, CONFIG.CHUNK_SIZE.
  destruct (startIndex + 6000 <? length text); [|lia].
  set (zone := slice text _ _).
  pose proof (breakPoints_range zone) as Hr.
  destruct (breakPoints zone) as [|b bs] eqn:Eb; [lia|].
  assert (0 <= maxOf (b :: bs) <= length zone - 2)
    by (apply maxOf_range; [discriminate | exact Hr]).
  lia.
Qed.

(** The cut lies at most 6199 code units after the start of the window. *)
Lemma chunkEnd_upper (text : jsstring) (startIndex : Z) :
  0 <= startIndex -> chunkEnd text startIndex <= startIndex + 6199.
Proof.
  intros Hs. unfold chunkEnd, CONFIG.CHUNK_SIZE.
  destruct (startIndex + 6000 <? length text); [|lia].
  set (searchStart := Z.max _ _). set (searchEnd := Z.min _ _).
  set (zone := slice text _ _).
  pose proof (breakPoints_range zone) as Hr.
  destruct (breakPoints zone) as [|b bs] eqn:Eb; [lia|].
  assert (0 <= maxOf (b :: bs) <= length zone - 2)
    by (apply maxOf_range; [discriminate | exact Hr]).
  pose proof (length_nonneg text).
  assert (length zone <= Z.max 0 (searchEnd - searchStart))
    by (apply slice_length_le; unfold searchStart, searchEnd; lia).
  unfold searchStart, searchEnd in *. lia.
Qed.

Lemma nextStart_range (text : jsstring) (endIndex : Z) :
  endIndex - 500 <= nextStart text endIndex <= endIndex.
Proof.
  unfold nextStart, CONFIG.CHUNK_OVERLAP.
  destruct (_ || _)%bool; lia.
Qed.

(** One iteration moves [startIndex] forward. *)
Lemma loop_advances (text : jsstring) (startIndex : Z) :
  startIndex < nextStart text (chunkEnd text startIndex).
Proof.
  pose proof (chunkEnd_lower text startIndex).
  pose proof (nextStart_range text (chunkEnd text startIndex)).
  lia.
Qed.

(** As many units of fuel as code units remain are enough. *)
Lemma chunkLoop_enough_fuel (text : jsstring) (fuel : nat) :
  forall startIndex chunks,
    length text - startIndex <= Z.of_nat fuel ->
    exists cs, chunkLoop fuel text startIndex chunks = Some cs.
Proof.
  induction fuel as [|fuel IH]; intros startIndex chunks Hfuel; simpl.
  - destruct (startIndex <? length text) eqn:E.
    + apply Z.ltb_lt in E. lia.
    + now exists chunks.
  - destruct (startIndex <? length text) eqn:E; [|now exists chunks].
    apply IH. pose proof (loop_advances text startIndex). lia.
Qed.

Lemma chunkText_total (text : jsstring) :
  exists cs, chunkText text = Some cs.
Proof.
  unfold chunkText.
  destruct (length text =? 0); [now exists []|].
  destruct (length text <=? CONFIG.CHUNK_SIZE); [now exists [text]|].
  apply chunkLoop_enough_fuel. unfold length. lia.
Qed.

(** Invariants of the loop: a property of the start index and of the
    chunks pushed so far that every iteration keeps holds at the exit. *)
Lemma chunkLoop_invariant (text : jsstring)
  (Inv : Z -> list jsstring -> Prop) :
  (forall startIndex chunks,
      0 <= startIndex < length text ->
      Inv startIndex chunks ->
      Inv (nextStart text (chunkEnd text startIndex))
          (pushChunk chunks
             (trim (slice text startIndex (chunkEnd text startIndex))))) ->
  forall fuel startIndex chunks cs,
    0 <= startIndex ->
    Inv startIndex chunks ->
    chunkLoop fuel text startIndex chunks = Some cs ->
    exists final, length text <= final /\ Inv final cs.
Proof.
  intros Hstep. induction fuel as [|fuel IH];
    intros startIndex chunks cs H0 HI Hrun; simpl in Hrun;
    destruct (startIndex <? length text) eqn:E;
    try discriminate.
  - apply Z.ltb_ge in E. injection Hrun as <-. now exists startIndex.
  - apply Z.ltb_lt in E. apply IH in Hrun; [exact Hrun | |].
    + pose proof (loop_advances text startIndex). lia.
    + apply Hstep; [lia | exact HI].
  - apply Z.ltb_ge in E. injection Hrun as <-. now exists startIndex.
Qed.

Lemma In_pushChunk (chunks : list jsstring) (chunk c : jsstring) :
  In c chunks -> In c (pushChunk chunks chunk).
Proof.
  unfold pushChunk. destruct (0 <? length chunk); [|tauto].
  intros H. apply in_or_app. now left.
Qed.

Lemma In_pushChunk_new (chunks : list jsstring) (chunk : jsstring) :
  chunk <> [] -> In chunk (pushChunk chunks chunk).
Proof.
  intros Hne. unfold pushChunk.
  destruct chunk as [|c chunk]; [congruence|].
  unfold length. simpl. apply in_or_app. right. now left.
Qed.

Lemma Forall_pushChunk (P : jsstring -> Prop) (chunks : list jsstring)
  (chunk : jsstring) :
  Forall P chunks -> P chunk -> Forall P (pushChunk chunks chunk).
Proof.
  intros Hc Hp. unfold pushChunk. destruct (0 <? length chunk); [|exact Hc].
  apply Forall_app. split; [exact Hc | now constructor].
Qed.

(** The window of an iteration is at most 6199 code units long. *)
Lemma window_length (text : jsstring) (startIndex : Z) :
  0 <= startIndex ->
  length (trim (slice text startIndex (chunkEnd text startIndex))) <= 6199.
Proof.
  intros Hs.
  pose proof (length_trim_le (slice text startIndex (chunkEnd text startIndex))).
  pose proof (chunkEnd_lower text startIndex).
  pose proof (chunkEnd_upper text startIndex Hs).
  pose proof (slice_length_le text startIndex (chunkEnd text startIndex)).
  lia.
Qed.

Lemma covered_pushChunk (text : jsstring) (chunks : list jsstring)
  (chunk : jsstring) (i : nat) :
  covered text chunks i -> covered text (pushChunk chunks chunk) i.
Proof.
  intros (pre & c & post & Hin & Heq & Hi).
  exists pre, c, post. split; [now apply In_pushChunk | now split].
Qed.

(** A code unit that is not whitespace and sits between a whitespace
    prefix and a whitespace suffix sits in the middle part. *)
Lemma nth_error_middle (p m q : jsstring) (k : nat) (c : char) :
  nth_error (p ++ m ++ q) k = Some c ->
  Forall (fun c => isWhiteSpace c = true) p ->
  Forall (fun c => isWhiteSpace c = true) q ->
  isWhiteSpace c = false ->
  (List.length p <= k < List.length p + List.length m)%nat.
Proof.
  intros Hnth Hp Hq Hc.
  rewrite Forall_forall in Hp, Hq.
  destruct (Nat.lt_ge_cases k (List.length p)) as [Hlt | Hge].
  - rewrite nth_error_app1 in Hnth by exact Hlt.
    apply nth_error_In, Hp in Hnth. congruence.
  - split; [exact Hge|].
    rewrite nth_error_app2 in Hnth by exact Hge.
    destruct (Nat.lt_ge_cases (k - List.length p) (List.length m))
      as [Hlt' | Hge']; [lia|].
    rewrite nth_error_app2 in Hnth by exact Hge'.
    apply nth_error_In, Hq in Hnth. congruence.
Qed.

(** The chunk of an iteration covers every code unit of its window that
    is not whitespace. *)
Lemma window_covers (text : jsstring) (chunks : list jsstring)
  (startIndex : Z) (i : nat) (c : char) :
  0 <= startIndex ->
  startIndex <= Z.of_nat i < chunkEnd text startIndex ->
  nth_error text i = Some c ->
  isWhiteSpace c = false ->
  covered text
    (pushChunk chunks
       (trim (slice text startIndex (chunkEnd text startIndex)))) i.
Proof.
  intros H0 Hi Hnth Hc.
  set (endIndex := chunkEnd text startIndex) in *.
  set (window := slice text startIndex endIndex).
  assert (Hlen : (i < List.length text)%nat)
    by (apply nth_error_Some; congruence).
  destruct (slice_split text startIndex endIndex) as (pre & post & Ht & Hpre & Hw);
    [lia|]. fold window in Ht, Hw.
  destruct (trim_split window) as (p & q & Hwin & Hp & Hq).
  unfold length in Hpre, Hw.
  assert (Hnw : nth_error window (i - List.length pre) = Some c).
  { rewrite Ht in Hnth.
    rewrite nth_error_app2 in Hnth by lia.
    rewrite nth_error_app1 in Hnth by lia. exact Hnth. }
  rewrite Hwin in Hnw.
  pose proof (nth_error_middle _ _ _ _ _ Hnw Hp Hq Hc) as Hmid.
  exists (pre ++ p), (trim window), (q ++ post). repeat split.
  - apply In_pushChunk_new. intros E. rewrite E in Hmid. simpl in Hmid. lia.
  - rewrite Ht at 1. rewrite Hwin at 1. now rewrite <- !app_assoc.
  - rewrite List.length_app. lia.
  - rewrite List.length_app. lia.
Qed.

End ChunkerFacts.

(* ------------------------------------------------------------------ *)
(** ** Facts about the normalizer and the classifier *)
(* ------------------------------------------------------------------ *)

Lemma cleanText_trimmed (raw : jsstring) : trim (cleanText raw) = cleanText raw.
Proof.
  destruct raw as [|c raw]; [reflexivity|].
  unfold cleanText. apply trim_idempotent.
Qed.

Lemma Qltb_false_of_le (a b : Q) : (b <= a)%Q -> Qltb a b = false.
Proof.
  intros H. unfold Qltb. apply Qle_bool_iff in H. now rewrite H.
Qed.

Lemma Qltb_true_of_lt (a b : Q) : (a < b)%Q -> Qltb a b = true.
Proof.
  intros H. unfold Qltb. destruct (Qle_bool b a) eqn:E; [|reflexivity].
  apply Qle_bool_iff in E. exfalso. exact (Qlt_not_le _ _ H E).
Qed.

(* ------------------------------------------------------------------ *)
(** ** The embedding on the scenarios of the specification *)
(* ------------------------------------------------------------------ *)

(** 20000 letters without any delimiter: four chunks, cut at the size. *)
Example chunkText_no_delimiter :
  option_map (map length) (chunkText (repeat 0x61%N (Z.to_nat 20000)))
  = Some [6000; 6000; 6000; 3500].
Proof. vm_compute. reflexivity. Qed.

(** A sentence end within 200 code units after the raw cut moves the cut
    just behind the full stop. *)
Example chunkText_breaks_after_full_stop :
  option_map (map length)
    (chunkText (repeat 0x61%N (Z.to_nat 6100) ++ lit ". "
                ++ repeat 0x62%N (Z.to_nat 1000)))
  = Some [6101; 1501].
Proof. vm_compute. reflexivity. Qed.

Example cleanText_sample :
  cleanText (lit "  Article  1 " ++ [LF; LF; LF; LF; 0x09%N; 0x00%N]
             ++ lit " bail  " ++ [LF])
  = lit "Article 1" ++ [LF; LF] ++ lit "bail".
Proof. reflexivity. Qed.

Example isTextQualityGood_digits_only :
  isTextQualityGood (repeat 0x37%N 1000) = false.
Proof. vm_compute. reflexivity. Qed.

Example isTextQualityGood_short :
  isTextQualityGood (lit "Bonjour...") = false.
Proof. reflexivity. Qed.

Example isTextQualityGood_prose :
  isTextQualityGood
    (lit "Le tribunal a statue sur la demande du bailleur et condamne le preneur.")
  = true.
Proof. vm_compute. reflexivity. Qed.

(* ------------------------------------------------------------------ *)
(** ** The chunker: termination, bound, coverage, short inputs *)
(* ------------------------------------------------------------------ *)

(** C4. The chunker terminates on every input: every iteration of the loop
    moves [startIndex] strictly forward, whatever the text holds, and
    [chunkText] returns a finite list of chunks. *)
Theorem chunkText_terminates (text : jsstring) :
  (forall startIndex,
      startIndex < nextStart text (chunkEnd text startIndex))
  /\ exists cs, chunkText text = Some cs.
Proof.
  split.
  - intros startIndex. apply loop_advances.
  - apply chunkText_total.
Qed.

(** C10. Every chunk that [chunkText] returns has at most
    [CHUNK_SIZE + 200] code units. *)
Theorem chunkText_chunk_length_bound (text : jsstring) :
  exists cs,
    chunkText text = Some cs
    /\ Forall (fun c => length c <= CONFIG.CHUNK_SIZE + 200) cs.
Proof.
  destruct (chunkText_total text) as (cs & Hcs).
  exists cs. split; [exact Hcs|].
  unfold chunkText in Hcs. unfold CONFIG.CHUNK_SIZE in *.
  destruct (length text =? 0).
  { injection Hcs as <-. constructor. }
  destruct (length text <=? 6000) eqn:E.
  { injection Hcs as <-. apply Z.leb_le in E.
    constructor; [lia | constructor]. }
  destruct (chunkLoop_invariant text
              (fun _ chunks => Forall (fun c => length c <= 6000 + 200) chunks))
    with (fuel := List.length text) (startIndex := 0)
         (chunks := @nil jsstring) (cs := cs)
    as (final & _ & Hall); try assumption; try lia; [|constructor].
  intros startIndex chunks Hrange Hinv.
  apply Forall_pushChunk; [exact Hinv|].
  pose proof (window_length text startIndex). lia.
Qed.

(** The chunk of an iteration covers whatever lies between two code units
    of its window that are not whitespace. *)
Lemma window_covers_between (text : jsstring) (chunks : list jsstring)
  (startIndex : Z) (j i k : nat) (cj ck : char) :
  0 <= startIndex ->
  startIndex <= Z.of_nat j ->
  (j <= i <= k)%nat ->
  Z.of_nat k < chunkEnd text startIndex ->
  nth_error text j = Some cj -> isWhiteSpace cj = false ->
  nth_error text k = Some ck -> isWhiteSpace ck = false ->
  covered text
    (pushChunk chunks
       (trim (slice text startIndex (chunkEnd text startIndex)))) i.
Proof.
  intros H0 Hj Hjik Hk Hnj Hcj Hnk Hck.
  set (endIndex := chunkEnd text startIndex) in *.
  set (window := slice text startIndex endIndex).
  assert (Hlen : (k < List.length text)%nat)
    by (apply nth_error_Some; congruence).
  destruct (slice_split text startIndex endIndex)
    as (pre & post & Ht & Hpre & Hw); [lia|]. fold window in Ht, Hw.
  destruct (trim_split window) as (p & q & Hwin & Hp & Hq).
  unfold length in Hpre, Hw.
  assert (Hin : forall n d, (j <= n <= k)%nat -> nth_error text n = Some d ->
                            nth_error window (n - List.length pre) = Some d).
  { intros n d Hn Hd. rewrite Ht in Hd.
    rewrite nth_error_app2 in Hd by lia.
    rewrite nth_error_app1 in Hd by lia. exact Hd. }
  pose proof (Hin j cj ltac:(lia) Hnj) as Hwj.
  pose proof (Hin k ck ltac:(lia) Hnk) as Hwk.
  rewrite Hwin in Hwj, Hwk.
  pose proof (nth_error_middle _ _ _ _ _ Hwj Hp Hq Hcj) as Hmj.
  pose proof (nth_error_middle _ _ _ _ _ Hwk Hp Hq Hck) as Hmk.
  exists (pre ++ p), (trim window), (q ++ post). repeat split.
  - apply In_pushChunk_new. intros E. rewrite E in Hmj. simpl in Hmj. lia.
  - rewrite Ht at 1. rewrite Hwin at 1. now rewrite <- !app_assoc.
  - rewrite List.length_app. lia.
  - rewrite List.length_app. lia.
Qed.

(** After the cut, the next window starts [CHUNK_OVERLAP] code units
    before it, unless the cut lies 400 code units or more behind the end of
    the text. *)
Lemma nextStart_cases (text : jsstring) (endIndex : Z) :
  nextStart text endIndex = endIndex - CONFIG.CHUNK_OVERLAP
  \/ (nextStart text endIndex = endIndex
      /\ (endIndex <= 500 \/ length text + 400 <= endIndex)).
Proof.
  unfold nextStart, CONFIG.CHUNK_OVERLAP.
  destruct (Z.leb_spec (endIndex - 500) 0);
    destruct (Z.leb_spec (length text - 100) (endIndex - 500)); simpl;
    try (right; split; [reflexivity | lia]).
  now left.
Qed.

(** C5, as the code has it.  Every code unit of a text of at most
    [CHUNK_SIZE] code units lies in its single chunk.  In a longer text,
    every code unit that is not whitespace, and every code unit that lies
    between two such code units at most [CHUNK_OVERLAP] positions apart,
    lies in some chunk: a chunk is a substring of the input and the
    position falls inside that occurrence.  Only whitespace that the trim
    of a window removes and the overlap does not bring back, in a run of
    [CHUNK_OVERLAP] code units or more or at an end of the text, may be in
    no chunk. *)
Theorem chunkText_covers_between (text : jsstring) (cs : list jsstring)
  (i : nat) :
  chunkText text = Some cs ->
  (i < List.length text)%nat ->
  length text <= CONFIG.CHUNK_SIZE \/ anchored text i ->
  covered text cs i.
Proof.
  intros Hcs Hi Hwhere.
  unfold chunkText in Hcs.
  destruct (Z.eqb_spec (length text) 0) as [E0 | _].
  { unfold length in E0. lia. }
  destruct (Z.leb_spec (length text) CONFIG.CHUNK_SIZE) as [Hshort | Hlong].
  { injection Hcs as <-. exists [], text, []. repeat split; simpl; try lia.
    - now left.
    - now rewrite app_nil_r. }
  destruct Hwhere as [Hshort | (j & k & cj & ck & Hjik & Hnear & Hnj & Hcj
                                 & Hnk & Hck)];
    [lia|].
  unfold CONFIG.CHUNK_OVERLAP, CONFIG.CHUNK_SIZE in *.
  destruct (chunkLoop_invariant text
              (fun startIndex chunks =>
                 startIndex = 0
                 \/ forall j i k cj ck,
                     (j <= i <= k)%nat ->
                     Z.of_nat k - Z.of_nat j <= 500 ->
                     nth_error text j = Some cj -> isWhiteSpace cj = false ->
                     nth_error text k = Some ck -> isWhiteSpace ck = false ->
                     Z.of_nat k < startIndex + 500 ->
                     covered text chunks i))
    with (fuel := List.length text) (startIndex := 0)
         (chunks := @nil jsstring) (cs := cs)
    as (final & Hfinal & Hinv); try assumption; try lia; try (now left).
  - intros startIndex chunks Hrange Hinv. right.
    intros j' i' k' cj' ck' Hjik' Hnear' Hnj' Hcj' Hnk' Hck' Hk'.
    assert (Hklen : (k' < List.length text)%nat)
      by (apply nth_error_Some; congruence).
    pose proof (chunkEnd_lower text startIndex) as Hend.
    assert (Hkend : Z.of_nat k' < chunkEnd text startIndex).
    { destruct (nextStart_cases text (chunkEnd text startIndex))
        as [E | (E & Hfar)]; rewrite E in Hk'.
      - unfold CONFIG.CHUNK_OVERLAP in Hk'. lia.
      - unfold length in Hfar. lia. }
    destruct (Z.lt_ge_cases (Z.of_nat j') startIndex) as [Hold | Hnew].
    + apply covered_pushChunk.
      destruct Hinv as [E | Hinv]; [lia|].
      apply (Hinv j' i' k' cj' ck'); try assumption. lia.
    + apply (window_covers_between text chunks startIndex j' i' k' cj' ck');
        try assumption; lia.
  - destruct Hinv as [E | Hinv]; [unfold length in Hfinal; lia|].
    apply (Hinv j i k cj ck); try assumption.
    assert ((k < List.length text)%nat)
      by (apply nth_error_Some; congruence).
    unfold length in Hfinal. lia.
Qed.

Lemma chunkText_covers_between_witness :
  covered spaceAtCutText
    [repeat 0x61%N (Z.to_nat 5999);
     repeat 0x61%N (Z.to_nat 499) ++ [SPACE] ++ repeat 0x62%N (Z.to_nat 1000)]
    (Z.to_nat 5999).
Proof.
  apply (chunkText_covers_between spaceAtCutText _ (Z.to_nat 5999)).
  - vm_compute. reflexivity.
  - apply Nat.ltb_lt. vm_compute. reflexivity.
  - right. exists (Z.to_nat 5998), (Z.to_nat 6000), 0x61%N, 0x62%N.
    repeat split; try (vm_compute; reflexivity);
      try (vm_compute; discriminate); lia.
Defined.

(** C5, as the specification states it, fails: the run of 700 no-break
    spaces of [nbspRunText], a text that the normalizer leaves as it is, is
    trimmed off both chunks, so that a code unit of the input is in no
    chunk at all. *)
Lemma chunkText_coverage_counterexample :
  cleanText nbspRunText = nbspRunText
  /\ chunkText nbspRunText
     = Some [repeat 0x61%N (Z.to_nat 5400); repeat 0x62%N (Z.to_nat 1000)]
  /\ In NBSP nbspRunText
  /\ ~ (exists chunk,
          In chunk [repeat 0x61%N (Z.to_nat 5400);
                    repeat 0x62%N (Z.to_nat 1000)]
          /\ In NBSP chunk).
Proof.
  split; [vm_compute; reflexivity|].
  split; [vm_compute; reflexivity|].
  split.
  - unfold nbspRunText. apply in_or_app. right. apply in_or_app. left.
    now left.
  - intros (chunk & [<- | [<- | []]] & Hin);
      apply repeat_spec in Hin; discriminate.
Qed.

(** The distance [CHUNK_OVERLAP] of [anchored] cannot be raised.  In 5500
    letters, 500 no-break spaces and 1000 letters, the two letters around
    the run are 501 positions apart, the first window ends where the run
    ends and the second starts where the run starts: the run is trimmed off
    both chunks. *)
Example chunkText_overlap_is_tight :
  let text := repeat 0x61%N (Z.to_nat 5500) ++ repeat NBSP (Z.to_nat 500)
              ++ repeat 0x62%N (Z.to_nat 1000) in
  cleanText text = text
  /\ nth_error text (Z.to_nat 5499) = Some 0x61%N
  /\ nth_error text (Z.to_nat 5500) = Some NBSP
  /\ nth_error text (Z.to_nat 6000) = Some 0x62%N
  /\ chunkText text
     = Some [repeat 0x61%N (Z.to_nat 5500); repeat 0x62%N (Z.to_nat 1000)]
  /\ ~ (exists chunk,
          In chunk [repeat 0x61%N (Z.to_nat 5500);
                    repeat 0x62%N (Z.to_nat 1000)]
          /\ In NBSP chunk).
Proof.
  cbv zeta.
  split; [vm_compute; reflexivity|].
  split; [vm_compute; reflexivity|].
  split; [vm_compute; reflexivity|].
  split; [vm_compute; reflexivity|].
  split; [vm_compute; reflexivity|].
  intros (chunk & [<- | [<- | []]] & Hin);
    apply repeat_spec in Hin; discriminate.
Qed.

(** For a non-empty input of at most [CHUNK_SIZE] code units [chunkText]
    returns the input itself as the only chunk (line 79), without the trim
    of line 103.  That is [[trim(input)]] whenever the input has no
    whitespace at either end, and so for every text that comes out of
    [cleanText], the only texts the extraction paths hand to [chunkText]. *)
Lemma chunkText_short_input (text : jsstring) :
  0 < length text <= CONFIG.CHUNK_SIZE ->
  chunkText text = Some [text]
  /\ (trim text = text -> chunkText text = Some [trim text])
  /\ (forall raw, text = cleanText raw -> chunkText text = Some [trim text]).
Proof.
  intros [Hpos Hle].
  assert (H : chunkText text = Some [text]).
  { unfold chunkText.
    destruct (length text =? 0) eqn:E0; [apply Z.eqb_eq in E0; lia|].
    destruct (length text <=? CONFIG.CHUNK_SIZE) eqn:E1; [reflexivity|].
    apply Z.leb_gt in E1. lia. }
  split; [exact H|]. split.
  - intros ->. exact H.
  - intros raw ->. rewrite cleanText_trimmed. exact H.
Qed.

Lemma chunkText_short_input_witness :
  chunkText (lit "Article 1. Le bail est conclu.")
  = Some [lit "Article 1. Le bail est conclu."].
Proof.
  refine (proj1 (chunkText_short_input
                   (lit "Article 1. Le bail est conclu.") _)).
  unfold CONFIG.CHUNK_SIZE, length. simpl. lia.
Defined.


(* ------------------------------------------------------------------ *)
(** ** The normalizer *)
(* ------------------------------------------------------------------ *)

(** C3 fails on the code.  On ["a\n \n \nb"] the normalizer first looks for
    runs of three newlines, finds none since the blank lines hold a space,
    and only then trims the lines: its result ["a\n\n\nb"] has three
    newlines in a row, which a second pass collapses to ["a\n\nb"]. *)
Theorem cleanText_not_idempotent :
  cleanText blankLinesText = lit "a" ++ [LF; LF; LF] ++ lit "b"
  /\ cleanText (cleanText blankLinesText) = lit "a" ++ [LF; LF] ++ lit "b"
  /\ cleanText (cleanText blankLinesText) <> cleanText blankLinesText.
Proof.
  split; [reflexivity|]. split; [reflexivity|].
  vm_compute. discriminate.
Qed.

(* ------------------------------------------------------------------ *)
(** ** The classifier *)
(* ------------------------------------------------------------------ *)

(** C9. The ratio floor is strict.  For a sample of at least 20 code units
    whose letter ratio equals 0.15, neither letter-ratio check rejects and
    the verdict is left to the word-density check; a letter ratio below
    0.15 is rejected. *)
Theorem letterRatio_floor_is_strict (text : jsstring) :
  20 <= length text ->
  ((letterRatio text == 15 # 100)%Q ->
     digitDominated text = false
     /\ tooFewLetters text = false
     /\ containsRealWords text = negb (tooSparse text))
  /\ ((letterRatio text < 15 # 100)%Q -> containsRealWords text = false).
Proof.
  intros Hlen.
  assert (Hshort : (length text <? 20) = false) by (apply Z.ltb_ge; lia).
  split.
  - intros Heq.
    assert (Hfloor : Qltb (letterRatio text) (15 # 100) = false).
    { apply Qltb_false_of_le. rewrite Heq. apply Qle_refl. }
    assert (Hdd : digitDominated text = false).
    { unfold digitDominated. rewrite Hfloor. apply andb_false_r. }
    assert (Htf : tooFewLetters text = false) by exact Hfloor.
    repeat split; try assumption.
    unfold containsRealWords. rewrite Hshort, Hdd, Htf.
    now destruct (tooSparse text).
  - intros Hlt.
    assert (Htf : tooFewLetters text = true)
      by (apply Qltb_true_of_lt; exact Hlt).
    unfold containsRealWords. rewrite Hshort, Htf.
    now destruct (digitDominated text).
Qed.

Lemma letterRatio_floor_is_strict_witness :
  (letterRatio boundaryText == 15 # 100)%Q
  /\ containsRealWords boundaryText = true.
Proof.
  assert (Hlen : 20 <= length boundaryText) by (vm_compute; discriminate).
  assert (Heq : (letterRatio boundaryText == 15 # 100)%Q) by reflexivity.
  split; [exact Heq|].
  destruct (letterRatio_floor_is_strict boundaryText Hlen) as [Hpass _].
  destruct (Hpass Heq) as (_ & _ & ->). reflexivity.
Defined.

(* ------------------------------------------------------------------ *)
(** ** The extraction entry points *)
(* ------------------------------------------------------------------ *)

Section OrchestratorFacts.

Context {World Buffer Error : Type}.
Variable pdf : Buffer -> M World Error PdfData.

(** [runOcrOnPdf] parses once more: it returns the text of that parse, or
    [""] when the parser throws, and never throws itself. *)
Lemma runOcrOnPdf_unfold (pdfBuffer : Buffer) (highPrecision : bool)
  (w : World) :
  runOcrOnPdf pdf pdfBuffer highPrecision w
  = match pdf pdfBuffer w with
    | None => None
    | Some (Normal data, w') => Some (Normal (textOrEmpty data), w')
    | Some (Throw _, w') => Some (Normal [], w')
    end.
Proof.
  unfold runOcrOnPdf, tryCatch, bind, ret.
  destruct (pdf pdfBuffer w) as [[[data | e] w'] |]; reflexivity.
Qed.

(** The end of both entry points: normalize, chunk, build the result. *)
Lemma ending_chunkText (text : jsstring) (w : World) :
  exists cs,
    chunkText text = Some cs
    /\ ending (Error := Error) (chunkText text) w = Some (Normal cs, w).
Proof.
  destruct (chunkText_total text) as (cs & Hcs).
  exists cs. split; [exact Hcs|]. unfold ending. now rewrite Hcs.
Qed.

End OrchestratorFacts.

(** C1. On the standard path, when the native text is classified bad and
    the fallback returns a text, the code adopts the fallback text and sets
    [ocrUsed] exactly when that text is strictly longer than the native
    one; otherwise it keeps the native text with [ocrUsed = false].  The
    length alone decides. *)
Theorem extractPdfText_adopts_ocr_iff_longer {World Buffer Error : Type}
  (pdf : Buffer -> M World Error PdfData) (pdfBuffer : Buffer)
  (highPrecision : bool) (w w1 w2 : World) (data : PdfData)
  (ocrText : jsstring) :
  pdf pdfBuffer w = Some (Normal data, w1) ->
  isTextQualityGood (textOrEmpty data) = false ->
  runOcrOnPdf pdf pdfBuffer highPrecision w1 = Some (Normal ocrText, w2) ->
  let native := textOrEmpty data in
  let adopted := length native <? length ocrText in
  let chosen := if adopted then ocrText else native in
  exists cs,
    chunkText (cleanText chosen) = Some cs
    /\ extractPdfText pdf pdfBuffer highPrecision w
       = Some (Normal {| fullText := cleanText chosen;
                         chunks := cs;
                         pagesProcessed := numpagesOrOne data;
                         ocrUsed := adopted |}, w2).
Proof.
  intros Hpdf Hbad Hocr. cbv zeta.
  destruct (ending_chunkText (Error := Error)
              (cleanText (if length (textOrEmpty data) <? length ocrText
                          then ocrText else textOrEmpty data)) w2)
    as (cs & Hcs & Hend).
  exists cs. split; [exact Hcs|].
  unfold extractPdfText, tryCatch, bind at 1. rewrite Hpdf.
  cbv beta iota zeta. rewrite Hbad. simpl negb. cbv iota.
  unfold bind. rewrite Hocr. cbv beta iota.
  destruct (length (textOrEmpty data) <? length ocrText);
    unfold ret; simpl fst; simpl snd; rewrite Hend; reflexivity.
Qed.

(** The two scenarios of the tie-break: 200 digits against a fallback of
    100 letters keep the native text; 50 digits against a fallback of 500
    letters adopt the fallback text. *)
Lemma extractPdfText_adopts_ocr_iff_longer_witness :
  (exists cs,
      extractPdfText (changesAnswer digits200 letters100) tt false 0%nat
      = Some (Normal {| fullText := repeat 0x37%N 200; chunks := cs;
                        pagesProcessed := 2; ocrUsed := false |}, 2%nat))
  /\ (exists cs,
        extractPdfText (changesAnswer digits50 letters500) tt false 0%nat
        = Some (Normal {| fullText := repeat 0x61%N 500; chunks := cs;
                          pagesProcessed := 2; ocrUsed := true |}, 2%nat)).
Proof.
  split.
  - destruct (extractPdfText_adopts_ocr_iff_longer
                (changesAnswer digits200 letters100) tt false
                0%nat 1%nat 2%nat digits200 (repeat 0x61%N 100)
                eq_refl eq_refl eq_refl) as (cs & _ & Hrun).
    exists cs. exact Hrun.
  - destruct (extractPdfText_adopts_ocr_iff_longer
                (changesAnswer digits50 letters500) tt false
                0%nat 1%nat 2%nat digits50 (repeat 0x61%N 500)
                eq_refl eq_refl eq_refl) as (cs & _ & Hrun).
    exists cs. exact Hrun.
Defined.

(** C2. If the outcome of the parser depends on the buffer only, the
    standard path ends with [ocrUsed = false]: the fallback parses the same
    buffer again and gets the same text, which is not strictly longer. *)
Theorem extractPdfText_pure_parser_never_uses_ocr
  {World Buffer Error : Type} (pdf : Buffer -> M World Error PdfData)
  (parse : Buffer -> completion Error PdfData) (pdfBuffer : Buffer)
  (highPrecision : bool) (w : World) :
  (forall b w0, exists w1, pdf b w0 = Some (parse b, w1)) ->
  exists r w',
    extractPdfText pdf pdfBuffer highPrecision w = Some (Normal r, w')
    /\ ocrUsed r = false.
Proof.
  intros Hpure.
  destruct (Hpure pdfBuffer w) as (w1 & H1).
  unfold extractPdfText, tryCatch, bind at 1. rewrite H1.
  destruct (parse pdfBuffer) as [data | e] eqn:Hparse.
  2:{ eexists _, _. split; reflexivity. }
  cbv beta iota zeta.
  destruct (isTextQualityGood (textOrEmpty data)) eqn:Hq; simpl negb;
    cbv iota.
  - destruct (ending_chunkText (Error := Error)
                (cleanText (textOrEmpty data)) w1) as (cs & _ & Hend).
    unfold bind, ret. simpl fst. rewrite Hend.
    eexists _, _. split; reflexivity.
  - destruct (Hpure pdfBuffer w1) as (w2 & H2).
    unfold bind.
    rewrite runOcrOnPdf_unfold, H2, Hparse, Z.ltb_irrefl.
    destruct (ending_chunkText (Error := Error)
                (cleanText (textOrEmpty data)) w2) as (cs & _ & Hend).
    unfold ret. simpl fst. rewrite Hend.
    eexists _, _. split; reflexivity.
Qed.

Lemma extractPdfText_pure_parser_never_uses_ocr_witness :
  exists r w',
    extractPdfText echoParser (lit "0123456789") false tt
    = Some (Normal r, w')
    /\ ocrUsed r = false.
Proof.
  apply (extractPdfText_pure_parser_never_uses_ocr echoParser
           (fun b => Normal {| text := Some b; numpages := Some 1 |})).
  intros b w0. exists w0. reflexivity.
Defined.

(** C7. When the native parser throws on the standard path, the caller
    gets the empty result, with no page, no chunk and [ocrUsed = false],
    and no error. *)
Theorem extractPdfText_parser_failure {World Buffer Error : Type}
  (pdf : Buffer -> M World Error PdfData) (pdfBuffer : Buffer)
  (highPrecision : bool) (w w1 : World) (e : Error) :
  pdf pdfBuffer w = Some (Throw e, w1) ->
  extractPdfText pdf pdfBuffer highPrecision w
  = Some (Normal {| fullText := []; chunks := []; pagesProcessed := 0;
                    ocrUsed := false |}, w1).
Proof.
  intros Hpdf. unfold extractPdfText, tryCatch, bind at 1.
  now rewrite Hpdf.
Qed.

Lemma extractPdfText_parser_failure_witness :
  extractPdfText rejectingParser (lit "not a pdf") false tt
  = Some (Normal {| fullText := []; chunks := []; pagesProcessed := 0;
                    ocrUsed := false |}, tt).
Proof.
  apply (extractPdfText_parser_failure rejectingParser
           (lit "not a pdf") false tt tt tt).
  reflexivity.
Defined.

(** C8, as the code has it.  On the forced path, after the fallback has
    returned its text, a page-count query that throws discards that text:
    the result is the empty one, with [pagesProcessed = 0] and
    [ocrUsed = true].  A query that answers keeps the normalized and
    chunked fallback text, and [pagesProcessed] is 1 when the answer holds
    no page count or a page count of zero. *)
Theorem extractPdfWithOcr_page_query {World Buffer Error : Type}
  (pdf : Buffer -> M World Error PdfData) (pdfBuffer : Buffer)
  (highPrecision : bool) (w w1 w2 : World) (ocrText : jsstring)
  (answer : completion Error PdfData) :
  runOcrOnPdf pdf pdfBuffer highPrecision w = Some (Normal ocrText, w1) ->
  pdf pdfBuffer w1 = Some (answer, w2) ->
  exists cs,
    chunkText (cleanText ocrText) = Some cs
    /\ extractPdfWithOcr pdf pdfBuffer highPrecision w
       = Some (Normal
                 match answer with
                 | Throw _ =>
                     {| fullText := []; chunks := []; pagesProcessed := 0;
                        ocrUsed := true |}
                 | Normal data =>
                     {| fullText := cleanText ocrText;
                        chunks := cs;
                        pagesProcessed :=
                          match numpages data with
                          | Some 0 | None => 1
                          | Some n => n
                          end;
                        ocrUsed := true |}
                 end, w2).
Proof.
  intros Hocr Hpdf.
  destruct (ending_chunkText (Error := Error) (cleanText ocrText) w1)
    as (cs & Hcs & Hend).
  exists cs. split; [exact Hcs|].
  unfold extractPdfWithOcr, tryCatch, bind. rewrite Hocr, Hend, Hpdf.
  destruct answer as [data | e]; [|reflexivity].
  unfold ret, numpagesOrOne.
  destruct (numpages data) as [[| |]|]; reflexivity.
Qed.

Lemma extractPdfWithOcr_page_query_witness :
  extractPdfWithOcr (failsOnSecondCall threePages) tt false 0%nat
  = Some (Normal {| fullText := []; chunks := []; pagesProcessed := 0;
                    ocrUsed := true |}, 2%nat).
Proof.
  destruct (extractPdfWithOcr_page_query
              (failsOnSecondCall threePages) tt false
              0%nat 1%nat 2%nat (lit "Bonjour le monde") (Throw tt)
              eq_refl eq_refl) as (cs & _ & Hrun).
  exact Hrun.
Defined.

(** C8, as the specification states it, fails: the fallback returns
    ["Bonjour le monde"], the page-count query throws, and the result holds
    neither that text nor a page count of 1. *)
Lemma extractPdfWithOcr_page_query_counterexample :
  runOcrOnPdf (failsOnSecondCall threePages) tt false 0%nat
  = Some (Normal (lit "Bonjour le monde"), 1%nat)
  /\ failsOnSecondCall threePages tt 1%nat = Some (Throw tt, 2%nat)
  /\ ~ (exists r w,
          extractPdfWithOcr (failsOnSecondCall threePages) tt false 0%nat
          = Some (Normal r, w)
          /\ fullText r = cleanText (lit "Bonjour le monde")
          /\ pagesProcessed r = 1).
Proof.
  split; [reflexivity|]. split; [reflexivity|].
  intros (r & w & Hrun & _ & Hpages).
  vm_compute in Hrun. injection Hrun as <- _.
  simpl in Hpages. discriminate.
Qed.

(* ------------------------------------------------------------------ *)
(** ** Further facts: replacing runs, trimming, lines *)
(* ------------------------------------------------------------------ *)


Lemma flushRun_Forall (Q : char -> Prop) (n : nat) (repl run : jsstring) :
  Forall Q repl -> Forall Q run -> Forall Q (flushRun n repl run).
Proof.
  intros Hrepl Hrun. unfold flushRun. destruct run; [constructor|].
  destruct (n <=? _)%nat; assumption.
Qed.

Lemma replaceRunsFrom_Forall (Q : char -> Prop) (p : char -> bool) (n : nat)
  (repl : jsstring) (s : jsstring) :
  Forall Q repl ->
  forall run, Forall Q run -> Forall Q s ->
              Forall Q (replaceRunsFrom p n repl run s).
Proof.
  intros Hrepl. induction s as [|c s IH]; intros run Hrun Hs; simpl.
  - now apply flushRun_Forall.
  - inversion Hs; subst. destruct (p c).
    + apply IH; [|assumption]. apply Forall_app. split; [assumption|].
      now constructor.
    + apply Forall_app. split; [now apply flushRun_Forall|].
      constructor; [assumption|]. apply IH; [constructor | assumption].
Qed.

Lemma replaceRuns_Forall (Q : char -> Prop) (p : char -> bool) (n : nat)
  (repl s : jsstring) :
  Forall Q repl -> Forall Q s -> Forall Q (replaceRuns p n repl s).
Proof.
  intros Hrepl Hs. unfold replaceRuns.
  apply replaceRunsFrom_Forall; [assumption | constructor | assumption].
Qed.

(** Replacing every code unit of a class by nothing leaves none. *)
Lemma replaceRunsFrom_removes (p : char -> bool) (s : jsstring) :
  forall run,
    Forall (fun c => p c = false) (replaceRunsFrom p 1 [] run s).
Proof.
  assert (Hflush : forall run, flushRun 1 [] run = []).
  { intros [|c run]; [reflexivity|]. reflexivity. }
  induction s as [|c s IH]; intros run; simpl.
  - rewrite Hflush. constructor.
  - destruct (p c) eqn:Hc; [apply IH|].
    rewrite Hflush. simpl. constructor; [exact Hc | apply IH].
Qed.

Lemma flushRun_length (n : nat) (repl run : jsstring) :
  (List.length repl <= n)%nat ->
  (List.length (flushRun n repl run) <= List.length run)%nat.
Proof.
  intros Hn. unfold flushRun. destruct run as [|c run]; [simpl; lia|].
  destruct (n <=? List.length (c :: run))%nat eqn:E; [|lia].
  apply Nat.leb_le in E. lia.
Qed.

Lemma replaceRunsFrom_length (p : char -> bool) (n : nat)
  (repl s : jsstring) :
  (List.length repl <= n)%nat ->
  forall run,
    (List.length (replaceRunsFrom p n repl run s)
     <= List.length run + List.length s)%nat.
Proof.
  intros Hn. induction s as [|c s IH]; intros run; simpl.
  - pose proof (flushRun_length n repl run Hn). lia.
  - destruct (p c).
    + specialize (IH (run ++ [c])). rewrite List.length_app in IH.
      simpl in IH. lia.
    + rewrite List.length_app. simpl.
      pose proof (flushRun_length n repl run Hn).
      specialize (IH []). simpl in IH. lia.
Qed.

Lemma replaceRuns_length (p : char -> bool) (n : nat) (repl s : jsstring) :
  (List.length repl <= n)%nat ->
  (List.length (replaceRuns p n repl s) <= List.length s)%nat.
Proof.
  intros Hn. unfold replaceRuns.
  pose proof (replaceRunsFrom_length p n repl s Hn []). simpl in *. lia.
Qed.

Lemma trim_Forall (Q : char -> Prop) (s : jsstring) :
  Forall Q s -> Forall Q (trim s).
Proof.
  intros Hs. destruct (trim_split s) as (pre & post & Heq & _).
  rewrite Heq in Hs. apply Forall_app in Hs as [_ Hs].
  now apply Forall_app in Hs as [Hs _].
Qed.

Lemma trim_length (s : jsstring) :
  (List.length (trim s) <= List.length s)%nat.
Proof. pose proof (length_trim_le s). unfold length in *. lia. Qed.

Lemma trim_whitespace (s : jsstring) :
  Forall (fun c => isWhiteSpace c = true) s -> trim s = [].
Proof.
  intros Hs. unfold trim, trimStart.
  assert (E : dropWhile isWhiteSpace s = []).
  { induction Hs as [|c s Hc _ IH]; simpl; [reflexivity|]. now rewrite Hc. }
  now rewrite E.
Qed.

Lemma trimEnd_last (s t : jsstring) (c : char) :
  trimEnd s = t ++ [c] -> isWhiteSpace c = false.
Proof.
  revert t. induction s as [|a s IH]; intros t Heq; simpl in Heq.
  - destruct t; discriminate.
  - destruct (trimEnd s) as [|d u] eqn:Eu.
    + destruct (isWhiteSpace a) eqn:Ha.
      * destruct t; discriminate.
      * destruct t as [|b t]; simpl in Heq.
        -- now injection Heq as <-.
        -- injection Heq as _ Heq. destruct t; discriminate.
    + destruct t as [|b t]; simpl in Heq; [discriminate|].
      injection Heq as _ Heq. now apply (IH t).
Qed.

Lemma splitLines_nonempty (s : jsstring) : splitLines s <> [].
Proof.
  destruct s as [|c s]; simpl; [discriminate|].
  destruct (N.eqb c LF); [discriminate|].
  destruct (splitLines s); discriminate.
Qed.

Lemma joinLines_cons (l : jsstring) (ls : list jsstring) :
  ls <> [] -> joinLines (l :: ls) = l ++ LF :: joinLines ls.
Proof. destruct ls; [congruence | reflexivity]. Qed.

Lemma joinLines_splitLines (s : jsstring) : joinLines (splitLines s) = s.
Proof.
  induction s as [|c s IH]; simpl; [reflexivity|].
  pose proof (splitLines_nonempty s) as Hne.
  destruct (N.eqb c LF) eqn:Ec.
  - apply N.eqb_eq in Ec. subst c.
    rewrite joinLines_cons by exact Hne. simpl. now rewrite IH.
  - destruct (splitLines s) as [|l ls]; [congruence|].
    destruct ls as [|l2 ls]; simpl in *; now rewrite <- IH.
Qed.

Lemma splitLines_Forall (Q : char -> Prop) (s : jsstring) :
  Forall Q s -> Forall (Forall Q) (splitLines s).
Proof.
  induction 1 as [|c s Hc Hs IH]; simpl; [repeat constructor|].
  destruct (N.eqb c LF); [constructor; [constructor | exact IH]|].
  destruct (splitLines s) as [|l ls]; [repeat constructor; exact Hc|].
  inversion IH; subst. constructor; [now constructor | assumption].
Qed.

Lemma joinLines_Forall (Q : char -> Prop) (ls : list jsstring) :
  Q LF -> Forall (Forall Q) ls -> Forall Q (joinLines ls).
Proof.
  intros HLF. induction 1 as [|l ls Hl Hls IH]; simpl; [constructor|].
  destruct ls as [|l2 ls]; [exact Hl|].
  apply Forall_app. split; [exact Hl|]. now constructor.
Qed.

Lemma joinLines_map_trim_length (ls : list jsstring) :
  (List.length (joinLines (map trim ls)) <= List.length (joinLines ls))%nat.
Proof.
  induction ls as [|l ls IH]; simpl; [lia|].
  pose proof (trim_length l).
  destruct ls as [|l2 ls]; simpl in *; [lia|].
  rewrite !List.length_app. simpl. lia.
Qed.

(* ------------------------------------------------------------------ *)
(** ** Further facts about the normalizer *)
(* ------------------------------------------------------------------ *)


Lemma cleanText_Forall (Q : char -> Prop) (text : jsstring) :
  Q SPACE -> Q LF ->
  Forall Q (replaceRuns isControl 1 [] text) ->
  Forall Q (cleanText text).
Proof.
  intros HS HL H. destruct text as [|c text]; [constructor|].
  unfold cleanText. apply trim_Forall, joinLines_Forall; [exact HL|].
  apply Forall_map.
  eapply Forall_impl; [intros l Hl; apply trim_Forall; exact Hl|].
  apply splitLines_Forall.
  apply replaceRuns_Forall; [repeat constructor; exact HL|].
  apply replaceRuns_Forall; [repeat constructor; exact HS|].
  exact H.
Qed.

Lemma cleanText_control_free (text : jsstring) :
  Forall (fun c => isControl c = false) (cleanText text).
Proof.
  apply cleanText_Forall; try reflexivity.
  apply replaceRunsFrom_removes.
Qed.

Lemma cleanText_shrinks (text : jsstring) :
  length (cleanText text) <= length text.
Proof.
  destruct text as [|c text]; [simpl; lia|].
  unfold cleanText. set (t := c :: text).
  assert (H1 := replaceRuns_length isControl 1 [] t (Nat.le_0_l 1)).
  assert (H2 := replaceRuns_length isSpaceTab 1 [SPACE]
                  (replaceRuns isControl 1 [] t) (Nat.le_refl 1)).
  assert (H3 := replaceRuns_length isNewline 3 [LF; LF]
                  (replaceRuns isSpaceTab 1 [SPACE]
                     (replaceRuns isControl 1 [] t))
                  (Nat.le_succ_diag_r 2)).
  set (s3 := replaceRuns isNewline 3 [LF; LF] _) in *.
  pose proof (joinLines_map_trim_length (splitLines s3)) as H4.
  rewrite joinLines_splitLines in H4.
  pose proof (trim_length (joinLines (map trim (splitLines s3)))) as H5.
  unfold length. lia.
Qed.

Lemma cleanText_blank (text : jsstring) :
  Forall (fun c => isWhiteSpace c = true) text -> cleanText text = [].
Proof.
  intros Hws. destruct text as [|c text]; [reflexivity|].
  assert (H : Forall (fun c => isWhiteSpace c = true)
                (cleanText (c :: text))).
  { apply cleanText_Forall; try reflexivity.
    apply replaceRuns_Forall; [constructor | exact Hws]. }
  rewrite <- cleanText_trimmed. now apply trim_whitespace.
Qed.

(* ------------------------------------------------------------------ *)
(** ** Further facts about the classifier *)
(* ------------------------------------------------------------------ *)


Lemma Qltb_ratio_l (a b n : Z) (d : positive) :
  0 < b ->
  Qltb (inject_Z a / inject_Z b) (n # d) = (a * Z.pos d <? n * b).
Proof.
  intros Hb. destruct b as [|p|p]; try lia.
  unfold Qltb, Qle_bool, Qdiv, Qmult, Qinv, inject_Z. simpl.
  rewrite Z.mul_1_r.
  destruct (Z.leb_spec (n * Z.pos p) (a * Z.pos d)),
           (Z.ltb_spec (a * Z.pos d) (n * Z.pos p)); simpl;
    try reflexivity; lia.
Qed.

Lemma Qltb_ratio_r (a b n : Z) (d : positive) :
  0 < b ->
  Qltb (n # d) (inject_Z a / inject_Z b) = (n * b <? a * Z.pos d).
Proof.
  intros Hb. destruct b as [|p|p]; try lia.
  unfold Qltb, Qle_bool, Qdiv, Qmult, Qinv, inject_Z. simpl.
  rewrite Z.mul_1_r.
  destruct (Z.leb_spec (a * Z.pos d) (n * Z.pos p)),
           (Z.ltb_spec (n * Z.pos p) (a * Z.pos d)); simpl;
    try reflexivity; lia.
Qed.

Lemma Qltb_density (w n : Z) :
  Qltb (inject_Z w) (inject_Z n / 10 * (1 # 10)) = (100 * w <? n).
Proof.
  set (rhs := 100 * w <? n).
  unfold Qltb, Qle_bool, Qdiv, Qmult, Qinv, inject_Z. simpl. subst rhs.
  destruct (Z.leb_spec (n * 1 * 1 * 1) (w * 100)),
           (Z.ltb_spec (100 * w) n); simpl; try reflexivity; lia.
Qed.

Lemma containsRealWords_as_integers (text : jsstring) :
  containsRealWords text
  = ((20 <=? length text)
     && (15 * length text <=? 100 * totalLetters text)
     && (length text <=? 100 * totalWords text))%bool.
Proof.
  unfold containsRealWords.
  destruct (Z.ltb_spec (length text) 20) as [Hs | Hl];
    destruct (Z.leb_spec 20 (length text)); try lia; try reflexivity.
  assert (Hpos : 0 < length text) by lia.
  unfold digitDominated, tooFewLetters, tooSparse, letterRatio, digitRatio,
    expectedWords, CONFIG.MIN_LETTER_RATIO.
  rewrite Qltb_ratio_r, !Qltb_ratio_l, Qltb_density by exact Hpos.
  destruct (Z.ltb_spec (5 * length text) (digits text * 10));
  destruct (Z.ltb_spec (totalLetters text * 100) (15 * length text));
  destruct (Z.leb_spec (15 * length text) (100 * totalLetters text));
  destruct (Z.ltb_spec (100 * totalWords text) (length text));
  destruct (Z.leb_spec (length text) (100 * totalWords text));
  simpl; try reflexivity; lia.
Qed.

(* ------------------------------------------------------------------ *)
(** ** Further facts about the chunker *)
(* ------------------------------------------------------------------ *)


Lemma Forall_pushChunk_nonempty (P : jsstring -> Prop)
  (chunks : list jsstring) (chunk : jsstring) :
  Forall P chunks -> (chunk <> [] -> P chunk) ->
  Forall P (pushChunk chunks chunk).
Proof.
  intros Hc Hp. unfold pushChunk.
  destruct chunk as [|c chunk]; [exact Hc|].
  unfold length. simpl. apply Forall_app. split; [exact Hc|].
  constructor; [|constructor]. apply Hp. discriminate.
Qed.

Lemma window_is_substring (text : jsstring) (startIndex : Z) :
  0 <= startIndex ->
  exists pre post,
    text
    = pre ++ trim (slice text startIndex (chunkEnd text startIndex)) ++ post.
Proof.
  intros H0. pose proof (chunkEnd_lower text startIndex).
  destruct (slice_split text startIndex (chunkEnd text startIndex))
    as (pre & post & Ht & _); [lia|].
  destruct (trim_split (slice text startIndex (chunkEnd text startIndex)))
    as (p & q & Hw & _).
  exists (pre ++ p), (q ++ post).
  rewrite Ht at 1. rewrite Hw at 1. now rewrite <- !app_assoc.
Qed.

Lemma chunkText_shape (text : jsstring) (cs : list jsstring)
  (c : jsstring) :
  chunkText text = Some cs ->
  In c cs ->
  c <> []
  /\ (exists pre post, text = pre ++ c ++ post)
  /\ (CONFIG.CHUNK_SIZE < length text -> trim c = c).
Proof.
  intros Hcs Hin. unfold chunkText in Hcs.
  destruct (length text =? 0) eqn:E0.
  { injection Hcs as <-. destruct Hin. }
  destruct (Z.leb_spec (length text) CONFIG.CHUNK_SIZE) as [Hle | Hgt].
  { injection Hcs as <-. destruct Hin as [<- | []]. repeat split.
    - intros ->. discriminate.
    - exists [], []. simpl. now rewrite app_nil_r.
    - lia. }
  destruct (chunkLoop_invariant text
              (fun _ chunks =>
                 Forall (fun c => c <> []
                                  /\ (exists pre post, text = pre ++ c ++ post)
                                  /\ trim c = c) chunks))
    with (fuel := List.length text) (startIndex := 0)
         (chunks := @nil jsstring) (cs := cs)
    as (final & _ & Hall); try assumption; try lia; [|constructor|].
  - intros startIndex chunks Hrange Hinv.
    apply Forall_pushChunk_nonempty; [exact Hinv|].
    intros Hne. repeat split; [exact Hne | | apply trim_idempotent].
    apply window_is_substring. lia.
  - rewrite Forall_forall in Hall. destruct (Hall c Hin) as (H1 & H2 & H3).
    repeat split; auto.
Qed.

Lemma chunkText_count (text : jsstring) (cs : list jsstring) :
  chunkText text = Some cs ->
  5301 * Z.of_nat (List.length cs) < length text + 5301.
Proof.
  intros Hcs. unfold chunkText in Hcs.
  destruct (Z.eqb_spec (length text) 0) as [E0 | E0].
  { injection Hcs as <-. simpl. lia. }
  pose proof (length_nonneg text).
  destruct (length text <=? CONFIG.CHUNK_SIZE).
  { injection Hcs as <-. simpl. lia. }
  destruct (chunkLoop_invariant text
              (fun startIndex chunks =>
                 5301 * Z.of_nat (List.length chunks) <= startIndex
                 /\ 5301 * Z.of_nat (List.length chunks)
                    < length text + 5301))
    with (fuel := List.length text) (startIndex := 0)
         (chunks := @nil jsstring) (cs := cs)
    as (final & _ & _ & Hall); try assumption; try (simpl; lia).
  intros startIndex chunks Hrange [Hinv1 Hinv2].
  pose proof (chunkEnd_lower text startIndex).
  pose proof (nextStart_range text (chunkEnd text startIndex)).
  assert (Hlen : Z.of_nat (List.length
                   (pushChunk chunks
                      (trim (slice text startIndex
                               (chunkEnd text startIndex)))))
                 <= Z.of_nat (List.length chunks) + 1).
  { unfold pushChunk. destruct (0 <? _); [|lia].
    rewrite List.length_app. simpl. lia. }
  lia.
Qed.

Lemma chunkText_covers (text : jsstring) (cs : list jsstring) (i : nat)
  (c : char) :
  chunkText text = Some cs ->
  nth_error text i = Some c ->
  isWhiteSpace c = false ->
  covered text cs i.
Proof.
  intros Hcs Hnth Hc.
  assert (Hlen : (i < List.length text)%nat)
    by (apply nth_error_Some; congruence).
  unfold chunkText in Hcs.
  destruct (Z.eqb_spec (length text) 0) as [E0 | E0].
  { unfold length in E0. lia. }
  destruct (length text <=? CONFIG.CHUNK_SIZE).
  { injection Hcs as <-. exists [], text, []. repeat split; simpl; try lia.
    - now left.
    - now rewrite app_nil_r. }
  destruct (chunkLoop_invariant text
              (fun startIndex chunks =>
                 forall j d, Z.of_nat j < startIndex ->
                             nth_error text j = Some d ->
                             isWhiteSpace d = false ->
                             covered text chunks j))
    with (fuel := List.length text) (startIndex := 0)
         (chunks := @nil jsstring) (cs := cs)
    as (final & Hfinal & Hinv); try assumption; try lia.
  - intros startIndex chunks Hrange Hinv j d Hj Hd Hws.
    destruct (Z.lt_ge_cases (Z.of_nat j) startIndex) as [Hold | Hnew].
    + apply covered_pushChunk. now apply (Hinv j d).
    + pose proof (nextStart_range text (chunkEnd text startIndex)).
      apply (window_covers text chunks startIndex j d); try assumption; lia.
  - apply (Hinv i c); try assumption. unfold length in Hfinal. lia.
Qed.

Lemma firstn_Forall (Q : char -> Prop) (n : nat) (s : jsstring) :
  Forall Q s -> Forall Q (firstn n s).
Proof.
  intros Hs. rewrite <- (firstn_skipn n s) in Hs.
  now apply Forall_app in Hs as [Hs _].
Qed.

Lemma skipn_Forall (Q : char -> Prop) (n : nat) (s : jsstring) :
  Forall Q s -> Forall Q (skipn n s).
Proof.
  intros Hs. rewrite <- (firstn_skipn n s) in Hs.
  now apply Forall_app in Hs as [_ Hs].
Qed.

Lemma slice_Forall (Q : char -> Prop) (s : jsstring) (a b : Z) :
  Forall Q s -> Forall Q (slice s a b).
Proof.
  intros Hs. unfold slice. now apply firstn_Forall, skipn_Forall.
Qed.

Lemma chunkText_empty_iff (text : jsstring) :
  chunkText text = Some []
  <-> text = []
      \/ (CONFIG.CHUNK_SIZE < length text
          /\ Forall (fun c => isWhiteSpace c = true) text).
Proof.
  split.
  - intros Hcs. destruct text as [|a text]; [now left|]. right.
    assert (Hlong : CONFIG.CHUNK_SIZE < length (a :: text)).
    { unfold chunkText in Hcs.
      destruct (Z.eqb_spec (length (a :: text)) 0) as [E0 | _];
        [unfold length in E0; simpl in E0; lia|].
      destruct (Z.leb_spec (length (a :: text)) CONFIG.CHUNK_SIZE);
        [discriminate | assumption]. }
    split; [exact Hlong|].
    apply Forall_forall. intros c Hin.
    apply In_nth_error in Hin as (i & Hi).
    destruct (isWhiteSpace c) eqn:Hc; [reflexivity|].
    destruct (chunkText_covers _ _ _ _ Hcs Hi Hc) as (_ & ? & _ & [] & _).
  - intros [-> | [Hlong Hws]]; [reflexivity|].
    unfold chunkText.
    destruct (Z.eqb_spec (length text) 0) as [E0 | _];
      [unfold CONFIG.CHUNK_SIZE in Hlong; lia|].
    destruct (Z.leb_spec (length text) CONFIG.CHUNK_SIZE); [lia|].
    destruct (chunkLoop_enough_fuel text (List.length text) 0 [])
      as (cs & Hcs); [unfold length; lia|].
    rewrite Hcs. f_equal.
    destruct (chunkLoop_invariant text (fun _ chunks => chunks = []))
      with (fuel := List.length text) (startIndex := 0)
           (chunks := @nil jsstring) (cs := cs)
      as (final & _ & Hnil); try assumption; try lia; try reflexivity.
    intros startIndex chunks _ ->.
    rewrite trim_whitespace; [reflexivity|]. now apply slice_Forall.
Qed.


Lemma chunkText_bound (text : jsstring) (cs : list jsstring) :
  chunkText text = Some cs ->
  Forall (fun c => length c <= CONFIG.CHUNK_SIZE + 200) cs.
Proof.
  intros Hcs. unfold chunkText in Hcs. unfold CONFIG.CHUNK_SIZE in *.
  destruct (length text =? 0).
  { injection Hcs as <-. constructor. }
  destruct (Z.leb_spec (length text) 6000).
  { injection Hcs as <-. constructor; [lia | constructor]. }
  destruct (chunkLoop_invariant text
              (fun _ chunks => Forall (fun c => length c <= 6000 + 200) chunks))
    with (fuel := List.length text) (startIndex := 0)
         (chunks := @nil jsstring) (cs := cs)
    as (final & _ & Hall); try assumption; try lia; [|constructor].
  intros startIndex chunks Hrange Hinv.
  apply Forall_pushChunk; [exact Hinv|].
  pose proof (window_length text startIndex). lia.
Qed.

(** The chunks of a normalized text. *)
Lemma chunkText_cleanText (raw : jsstring) (cs : list jsstring) :
  chunkText (cleanText raw) = Some cs ->
  (cs = [] <-> cleanText raw = [])
  /\ Forall (fun c => c <> [] /\ trim c = c
                      /\ length c <= CONFIG.CHUNK_SIZE + 200
                      /\ exists pre post, cleanText raw = pre ++ c ++ post)
       cs.
Proof.
  intros Hcs. split.
  - split.
    + intros ->. apply chunkText_empty_iff in Hcs as [E | [_ Hws]];
        [exact E|].
      rewrite <- cleanText_trimmed. now apply trim_whitespace.
    + intros E. rewrite E in Hcs. now injection Hcs as <-.
  - pose proof (chunkText_bound _ _ Hcs) as Hb.
    rewrite Forall_forall in *. intros c Hin.
    destruct (chunkText_shape _ _ _ Hcs Hin) as (Hne & Hsub & Htrim).
    repeat split; try assumption; [|now apply Hb].
    destruct (Z.leb_spec (length (cleanText raw)) CONFIG.CHUNK_SIZE)
      as [Hshort | Hlong]; [|now apply Htrim].
    unfold chunkText in Hcs.
    destruct (length (cleanText raw) =? 0);
      [injection Hcs as <-; destruct Hin|].
    destruct (Z.leb_spec (length (cleanText raw)) CONFIG.CHUNK_SIZE); [|lia].
    injection Hcs as <-. destruct Hin as [<- | []].
    apply cleanText_trimmed.
Qed.

(* ------------------------------------------------------------------ *)
(** ** Further facts about the extraction entry points *)
(* ------------------------------------------------------------------ *)


Section ResultFacts.

Context {World Buffer Error : Type}.
Variable pdf : Buffer -> M World Error PdfData.

Ltac reduce H :=
  cbn beta iota zeta delta [negb fst snd] in H.

Ltac split_on H t :=
  let E := fresh "E" in destruct t eqn:E; reduce H; try discriminate H.

Ltac crunch H :=
  unfold tryCatch, bind, ret, ending in H; reduce H;
  repeat
    (first
       [ rewrite runOcrOnPdf_unfold in H
       | match type of H with
         | context [match pdf ?b ?w with _ => _ end] =>
             let E := fresh "Hpdf" in
             destruct (pdf b w) as [[[? | ?] ?] |] eqn:E
         | context [isTextQualityGood ?t] =>
             let E := fresh "Hq" in destruct (isTextQualityGood t) eqn:E
         | context [if ?a <? ?b then _ else _] =>
             let E := fresh "Hlt" in destruct (a <? b) eqn:E
         | context [match chunkText ?t with _ => _ end] =>
             let E := fresh "Hchunks" in destruct (chunkText t) eqn:E
         end ];
     reduce H; try discriminate H).

Lemma extractPdfText_result (pdfBuffer : Buffer) (highPrecision : bool)
  (w w' : World) (r : PdfExtractionResult) :
  extractPdfText pdf pdfBuffer highPrecision w = Some (Normal r, w') ->
  exists t,
    fullText r = cleanText t /\ chunkText (fullText r) = Some (chunks r).
Proof.
  intros H. unfold extractPdfText in H. crunch H;
    injection H as <- <-; simpl;
    first [ eexists; split; [reflexivity | eassumption]
          | exists []; split; [reflexivity | eassumption]
          | exists []; split; reflexivity ].
Qed.

Lemma extractPdfWithOcr_result (pdfBuffer : Buffer) (highPrecision : bool)
  (w w' : World) (r : PdfExtractionResult) :
  extractPdfWithOcr pdf pdfBuffer highPrecision w = Some (Normal r, w') ->
  ocrUsed r = true
  /\ exists t,
      fullText r = cleanText t /\ chunkText (fullText r) = Some (chunks r).
Proof.
  intros H. unfold extractPdfWithOcr in H. crunch H;
    injection H as <- <-; simpl; (split; [reflexivity|]);
    first [ eexists; split; [reflexivity | eassumption]
          | exists []; split; [reflexivity | eassumption]
          | exists []; split; reflexivity ].
Qed.


Lemma numpagesOrOne_nonzero (data : PdfData) : numpagesOrOne data <> 0.
Proof.
  unfold numpagesOrOne. destruct (numpages data) as [n|]; [|discriminate].
  destruct (Z.eqb_spec n 0); [discriminate | assumption].
Qed.

Lemma extractPdfText_no_throw (pdfBuffer : Buffer) (highPrecision : bool)
  (w w' : World) (e : Error) :
  extractPdfText pdf pdfBuffer highPrecision w <> Some (Throw e, w').
Proof.
  intros H. unfold extractPdfText in H. crunch H.
Qed.

Lemma extractPdfWithOcr_no_throw (pdfBuffer : Buffer) (highPrecision : bool)
  (w w' : World) (e : Error) :
  extractPdfWithOcr pdf pdfBuffer highPrecision w <> Some (Throw e, w').
Proof.
  intros H. unfold extractPdfWithOcr in H. crunch H.
Qed.


Ltac absurd_end Hends :=
  match goal with
  | Hp : pdf _ _ = None |- _ => exfalso; exact (Hends _ _ Hp)
  | Hc : chunkText ?t = None |- _ =>
      exfalso; destruct (chunkText_total t) as (? & ?); congruence
  end.

Lemma extractPdfText_returns (pdfBuffer : Buffer)
  (highPrecision : bool) (w : World) :
  (forall b w0, pdf b w0 <> None) ->
  exists r w',
    extractPdfText pdf pdfBuffer highPrecision w = Some (Normal r, w').
Proof.
  intros Hends.
  destruct (extractPdfText pdf pdfBuffer highPrecision w)
    as [[[r | e] w'] |] eqn:H.
  - now exists r, w'.
  - exfalso. exact (extractPdfText_no_throw _ _ _ _ _ H).
  - unfold extractPdfText in H. crunch H; absurd_end Hends.
Qed.

Lemma extractPdfWithOcr_returns (pdfBuffer : Buffer)
  (highPrecision : bool) (w : World) :
  (forall b w0, pdf b w0 <> None) ->
  exists r w',
    extractPdfWithOcr pdf pdfBuffer highPrecision w = Some (Normal r, w')
    /\ ocrUsed r = true.
Proof.
  intros Hends.
  destruct (extractPdfWithOcr pdf pdfBuffer highPrecision w)
    as [[[r | e] w'] |] eqn:H.
  - exists r, w'. split; [reflexivity|].
    now apply extractPdfWithOcr_result in H.
  - exfalso. exact (extractPdfWithOcr_no_throw _ _ _ _ _ H).
  - unfold extractPdfWithOcr in H. crunch H; absurd_end Hends.
Qed.


(** X11. The standard path never throws: whenever the parser ends, it
    ends normally with a result. *)
Theorem extractPdfText_ends_normally (pdfBuffer : Buffer)
  (highPrecision : bool) (w : World) :
  (forall b w0, pdf b w0 <> None) ->
  exists r w',
    extractPdfText pdf pdfBuffer highPrecision w = Some (Normal r, w').
Proof. apply extractPdfText_returns. Qed.

(** X12. The forced path never throws either: whenever the parser ends, it
    ends normally with a result, and that result has [ocrUsed = true]. *)
Theorem extractPdfWithOcr_ends_normally (pdfBuffer : Buffer)
  (highPrecision : bool) (w : World) :
  (forall b w0, pdf b w0 <> None) ->
  exists r w',
    extractPdfWithOcr pdf pdfBuffer highPrecision w = Some (Normal r, w')
    /\ ocrUsed r = true.
Proof. apply extractPdfWithOcr_returns. Qed.

(** X13. Every result of the standard path is well formed: [fullText]
    holds no control character and no whitespace at either end, [chunks]
    is [chunkText fullText], it is empty exactly when [fullText] is, and
    each chunk is a non-empty substring of [fullText] without whitespace
    at either end and of at most [CHUNK_SIZE + 200] code units. *)
Theorem extractPdfText_result_well_formed (pdfBuffer : Buffer)
  (highPrecision : bool) (w w' : World) (r : PdfExtractionResult) :
  extractPdfText pdf pdfBuffer highPrecision w = Some (Normal r, w') ->
  Forall (fun c => isControl c = false) (fullText r)
  /\ trim (fullText r) = fullText r
  /\ chunkText (fullText r) = Some (chunks r)
  /\ (chunks r = [] <-> fullText r = [])
  /\ Forall (fun c => c <> [] /\ trim c = c
                      /\ length c <= CONFIG.CHUNK_SIZE + 200
                      /\ exists pre post, fullText r = pre ++ c ++ post)
       (chunks r).
Proof.
  intros H. apply extractPdfText_result in H as (t & Hfull & Hchunks).
  rewrite Hfull in *.
  destruct (chunkText_cleanText _ _ Hchunks) as (Hiff & Hall).
  repeat split; try assumption; try apply Hiff.
  - apply cleanText_control_free.
  - apply cleanText_trimmed.
Qed.

(** X14. Every result of the forced path has [ocrUsed = true] and is well
    formed in the same way. *)
Theorem extractPdfWithOcr_result_well_formed (pdfBuffer : Buffer)
  (highPrecision : bool) (w w' : World) (r : PdfExtractionResult) :
  extractPdfWithOcr pdf pdfBuffer highPrecision w = Some (Normal r, w') ->
  ocrUsed r = true
  /\ Forall (fun c => isControl c = false) (fullText r)
  /\ trim (fullText r) = fullText r
  /\ chunkText (fullText r) = Some (chunks r)
  /\ (chunks r = [] <-> fullText r = [])
  /\ Forall (fun c => c <> [] /\ trim c = c
                      /\ length c <= CONFIG.CHUNK_SIZE + 200
                      /\ exists pre post, fullText r = pre ++ c ++ post)
       (chunks r).
Proof.
  intros H.
  apply extractPdfWithOcr_result in H as (Hocr & t & Hfull & Hchunks).
  rewrite Hfull in *.
  destruct (chunkText_cleanText _ _ Hchunks) as (Hiff & Hall).
  repeat split; try assumption; try apply Hiff.
  - apply cleanText_control_free.
  - apply cleanText_trimmed.
Qed.

(** X15. On the standard path [pagesProcessed] is 0 exactly when the first
    call of the parser threw. *)
Theorem extractPdfText_zero_pages_iff (pdfBuffer : Buffer)
  (highPrecision : bool) (w w1 w' : World)
  (answer : completion Error PdfData) (r : PdfExtractionResult) :
  pdf pdfBuffer w = Some (answer, w1) ->
  extractPdfText pdf pdfBuffer highPrecision w = Some (Normal r, w') ->
  (pagesProcessed r = 0 <-> exists e, answer = Throw e).
Proof.
  intros Hfirst H. unfold extractPdfText in H.
  unfold tryCatch, bind at 1 in H. rewrite Hfirst in H.
  destruct answer as [data | e].
  - crunch H; injection H as <- <-; simpl;
      (split; [ intros E; now apply numpagesOrOne_nonzero in E
              | intros (? & He); discriminate He ]).
  - injection H as <- <-. simpl. split; [now exists e | reflexivity].
Qed.

(** X16. When the native text is classified good, the standard path calls
    the parser once and no fallback: the world is the one the first call
    left, the text is the normalized native text and [ocrUsed] is false. *)
Theorem extractPdfText_good_text_single_parse (pdfBuffer : Buffer)
  (highPrecision : bool) (w w1 : World) (data : PdfData) :
  pdf pdfBuffer w = Some (Normal data, w1) ->
  isTextQualityGood (textOrEmpty data) = true ->
  exists cs,
    chunkText (cleanText (textOrEmpty data)) = Some cs
    /\ extractPdfText pdf pdfBuffer highPrecision w
       = Some (Normal {| fullText := cleanText (textOrEmpty data);
                         chunks := cs;
                         pagesProcessed := numpagesOrOne data;
                         ocrUsed := false |}, w1).
Proof.
  intros Hfirst Hgood.
  destruct (ending_chunkText (Error := Error)
              (cleanText (textOrEmpty data)) w1) as (cs & Hcs & Hend).
  exists cs. split; [exact Hcs|].
  unfold extractPdfText, tryCatch, bind at 1. rewrite Hfirst.
  cbv beta iota zeta. rewrite Hgood. simpl negb. cbv iota.
  unfold bind, ret. simpl fst. simpl snd. now rewrite Hend.
Qed.

(** X17. When the native text is classified bad and the parse of the
    fallback throws, the standard path keeps the native text with
    [ocrUsed = false]. *)
Theorem extractPdfText_failed_fallback_keeps_native (pdfBuffer : Buffer)
  (highPrecision : bool) (w w1 w2 : World) (data : PdfData) (e : Error) :
  pdf pdfBuffer w = Some (Normal data, w1) ->
  isTextQualityGood (textOrEmpty data) = false ->
  pdf pdfBuffer w1 = Some (Throw e, w2) ->
  exists cs,
    chunkText (cleanText (textOrEmpty data)) = Some cs
    /\ extractPdfText pdf pdfBuffer highPrecision w
       = Some (Normal {| fullText := cleanText (textOrEmpty data);
                         chunks := cs;
                         pagesProcessed := numpagesOrOne data;
                         ocrUsed := false |}, w2).
Proof.
  intros Hfirst Hbad Hsecond.
  destruct (ending_chunkText (Error := Error)
              (cleanText (textOrEmpty data)) w2) as (cs & Hcs & Hend).
  exists cs. split; [exact Hcs|].
  unfold extractPdfText, tryCatch, bind at 1. rewrite Hfirst.
  cbv beta iota zeta. rewrite Hbad. simpl negb. cbv iota.
  unfold bind. rewrite runOcrOnPdf_unfold, Hsecond.
  assert (Hlt : (length (textOrEmpty data) <? length []) = false).
  { apply Z.ltb_ge. apply length_nonneg. }
  rewrite Hlt. unfold ret. simpl fst. simpl snd. now rewrite Hend.
Qed.

(** X18. If the outcome of the parser depends on the buffer only, the two
    paths return the same text, chunks and page count; they differ in
    [ocrUsed] alone. *)
Theorem extract_paths_agree_for_pure_parser
  (parse : Buffer -> completion Error PdfData) (pdfBuffer : Buffer)
  (highPrecision : bool) (w : World) :
  (forall b w0, exists w1, pdf b w0 = Some (parse b, w1)) ->
  exists r w1 w2,
    extractPdfText pdf pdfBuffer highPrecision w = Some (Normal r, w1)
    /\ ocrUsed r = false
    /\ extractPdfWithOcr pdf pdfBuffer highPrecision w
       = Some (Normal {| fullText := fullText r;
                         chunks := chunks r;
                         pagesProcessed := pagesProcessed r;
                         ocrUsed := true |}, w2).
Proof.
  intros Hpure.
  destruct (Hpure pdfBuffer w) as (wa & Ha).
  destruct (Hpure pdfBuffer wa) as (wb & Hb).
  destruct (parse pdfBuffer) as [data | e] eqn:Hparse.
  - destruct (chunkText_total (cleanText (textOrEmpty data))) as (cs & Hcs).
    assert (Hforced :
      extractPdfWithOcr pdf pdfBuffer highPrecision w
      = Some (Normal {| fullText := cleanText (textOrEmpty data);
                        chunks := cs;
                        pagesProcessed := numpagesOrOne data;
                        ocrUsed := true |}, wb)).
    { unfold extractPdfWithOcr, tryCatch, bind.
      rewrite runOcrOnPdf_unfold, Ha. unfold ending. rewrite Hcs, Hb.
      reflexivity. }
    rewrite Hforced.
    unfold extractPdfText, tryCatch, bind at 1. rewrite Ha.
    cbv beta iota zeta.
    destruct (isTextQualityGood (textOrEmpty data)); simpl negb; cbv iota.
    + unfold bind, ret, ending. simpl fst. simpl snd. rewrite Hcs.
      eexists _, _, _. repeat split.
    + unfold bind. rewrite runOcrOnPdf_unfold, Hb, Z.ltb_irrefl.
      unfold ret, ending. simpl fst. simpl snd. rewrite Hcs.
      eexists _, _, _. repeat split.
  - assert (Hforced :
      extractPdfWithOcr pdf pdfBuffer highPrecision w
      = Some (Normal {| fullText := []; chunks := []; pagesProcessed := 0;
                        ocrUsed := true |}, wb)).
    { unfold extractPdfWithOcr, tryCatch, bind.
      rewrite runOcrOnPdf_unfold, Ha. unfold ending. simpl. rewrite Hb.
      reflexivity. }
    rewrite Hforced.
    unfold extractPdfText, tryCatch, bind at 1. rewrite Ha.
    eexists _, _, _. repeat split.
Qed.

End ResultFacts.

(* ------------------------------------------------------------------ *)
(** ** Properties of the normalizer *)
(* ------------------------------------------------------------------ *)

(** X1. The normalized text holds no code unit of the control class
    [[\x00-\x09\x0B\x0C\x0E-\x1F\x7F]], so no tab either. *)
Theorem cleanText_output_has_no_control (text : jsstring) :
  Forall (fun c => isControl c = false) (cleanText text).
Proof. apply cleanText_control_free. Qed.

(** X2. The normalizer never makes a text longer. *)
Theorem cleanText_never_longer (text : jsstring) :
  length (cleanText text) <= length text.
Proof. apply cleanText_shrinks. Qed.

(** X3. A text that holds whitespace only is normalized to the empty
    string. *)
Theorem cleanText_of_whitespace_is_empty (text : jsstring) :
  Forall (fun c => isWhiteSpace c = true) text -> cleanText text = [].
Proof. apply cleanText_blank. Qed.

Lemma cleanText_of_whitespace_is_empty_witness : cleanText blankText = [].
Proof.
  apply (cleanText_of_whitespace_is_empty blankText).
  repeat constructor.
Defined.

(** X4. A normalized text that is not empty starts and ends with a code
    unit that is not whitespace. *)
Theorem cleanText_starts_and_ends_clean (text : jsstring) (c : char)
  (rest : jsstring) :
  cleanText text = c :: rest ->
  isWhiteSpace c = false /\ isWhiteSpace (last (c :: rest) c) = false.
Proof.
  intros Heq. split.
  - pose proof (trim_head (cleanText text)) as H.
    rewrite cleanText_trimmed, Heq in H. exact H.
  - destruct (@exists_last _ (c :: rest)) as (front & d & Hlast);
      [discriminate|].
    rewrite Hlast, last_last. rewrite Hlast in Heq.
    destruct text as [|a text]; [destruct front; discriminate|].
    unfold cleanText, trim in Heq. now apply trimEnd_last in Heq.
Qed.

Lemma cleanText_starts_and_ends_clean_witness :
  isWhiteSpace 0x61%N = false
  /\ isWhiteSpace (last (lit "a" ++ [LF; LF; LF] ++ lit "b") 0x61%N) = false.
Proof.
  apply (cleanText_starts_and_ends_clean blankLinesText 0x61%N
           ([LF; LF; LF] ++ lit "b")).
  reflexivity.
Defined.

(* ------------------------------------------------------------------ *)
(** ** Properties of the classifier *)
(* ------------------------------------------------------------------ *)

(** X5. The verdict of [containsRealWords] in integers: the text has at
    least 20 code units, at least 15 letters in 100 code units and at least
    one word in 100 code units.  The digit ratio takes no part: whatever
    the first ratio check rejects, the letter floor rejects as well. *)
Theorem containsRealWords_integer_form (text : jsstring) :
  containsRealWords text
  = ((20 <=? length text)
     && (15 * length text <=? 100 * totalLetters text)
     && (length text <=? 100 * totalWords text))%bool.
Proof. apply containsRealWords_as_integers. Qed.

(** X6. A text classified good has at least 50 code units after trimming,
    at least 15 letters in 100 code units and at least one run of three
    letters. *)
Theorem isTextQualityGood_requirements (text : jsstring) :
  isTextQualityGood text = true ->
  50 <= length (trim text)
  /\ 15 * length text <= 100 * totalLetters text
  /\ 1 <= totalWords text.
Proof.
  unfold isTextQualityGood, CONFIG.MIN_TEXT_LENGTH.
  destruct (Z.ltb_spec (length (trim text)) 50); [discriminate|].
  rewrite containsRealWords_as_integers. intros Hgood.
  apply andb_prop in Hgood as [Hgood Hwords].
  apply andb_prop in Hgood as [Hlen Hletters].
  apply Z.leb_le in Hlen, Hletters, Hwords. lia.
Qed.

Lemma isTextQualityGood_requirements_witness :
  50 <= length (trim proseText)
  /\ 15 * length proseText <= 100 * totalLetters proseText
  /\ 1 <= totalWords proseText.
Proof.
  apply (isTextQualityGood_requirements proseText).
  vm_compute. reflexivity.
Defined.

(** X7. A text without any letter is classified bad, whatever its length
    and whatever else it holds. *)
Theorem isTextQualityGood_rejects_letterless (text : jsstring) :
  totalLetters text = 0 -> isTextQualityGood text = false.
Proof.
  intros Hnone. unfold isTextQualityGood.
  destruct (length (trim text) <? CONFIG.MIN_TEXT_LENGTH); [reflexivity|].
  rewrite containsRealWords_as_integers, Hnone.
  destruct (Z.leb_spec 20 (length text)); [|reflexivity].
  destruct (Z.leb_spec (15 * length text) (100 * 0)); [lia | reflexivity].
Qed.

Lemma isTextQualityGood_rejects_letterless_witness :
  isTextQualityGood (repeat 0x37%N 1000) = false.
Proof.
  apply (isTextQualityGood_rejects_letterless (repeat 0x37%N 1000)).
  vm_compute. reflexivity.
Defined.

(* ------------------------------------------------------------------ *)
(** ** Properties of the chunker *)
(* ------------------------------------------------------------------ *)

(** X8. Every chunk is a non-empty substring of the input; when the input
    is longer than [CHUNK_SIZE], no chunk has whitespace at either end. *)
Theorem chunkText_chunks_are_substrings (text : jsstring)
  (cs : list jsstring) (c : jsstring) :
  chunkText text = Some cs ->
  In c cs ->
  c <> []
  /\ (exists pre post, text = pre ++ c ++ post)
  /\ (CONFIG.CHUNK_SIZE < length text -> trim c = c).
Proof. apply chunkText_shape. Qed.

Lemma chunkText_chunks_are_substrings_witness :
  repeat 0x61%N (Z.to_nat 501) <> []
  /\ (exists pre post, longText = pre ++ repeat 0x61%N (Z.to_nat 501) ++ post)
  /\ (CONFIG.CHUNK_SIZE < length longText ->
      trim (repeat 0x61%N (Z.to_nat 501)) = repeat 0x61%N (Z.to_nat 501)).
Proof.
  apply (chunkText_chunks_are_substrings longText
           [repeat 0x61%N (Z.to_nat 5999); repeat 0x61%N (Z.to_nat 501)]).
  - vm_compute. reflexivity.
  - right. left. reflexivity.
Defined.

(** X9. The number of chunks is bounded by the length of the input: every
    iteration moves the start by at least 5301 code units, so that
    [5301 * (chunks - 1) < length]. *)
Theorem chunkText_number_of_chunks (text : jsstring) (cs : list jsstring) :
  chunkText text = Some cs ->
  5301 * Z.of_nat (List.length cs) < length text + 5301.
Proof. apply chunkText_count. Qed.

Lemma chunkText_number_of_chunks_witness :
  5301 * 2 < length longText + 5301.
Proof.
  apply (chunkText_number_of_chunks longText
           [repeat 0x61%N (Z.to_nat 5999); repeat 0x61%N (Z.to_nat 501)]).
  vm_compute. reflexivity.
Defined.

(** X10. The chunker returns no chunk for the empty text and for the texts
    longer than [CHUNK_SIZE] that hold whitespace only, and for no other
    text; a shorter text of whitespace comes back as one chunk. *)
Theorem chunkText_no_chunk_iff (text : jsstring) :
  chunkText text = Some []
  <-> text = []
      \/ (CONFIG.CHUNK_SIZE < length text
          /\ Forall (fun c => isWhiteSpace c = true) text).
Proof. apply chunkText_empty_iff. Qed.

(* ------------------------------------------------------------------ *)
(** ** Properties of the extraction entry points on samples *)
(* ------------------------------------------------------------------ *)

Lemma extractPdfText_ends_normally_witness :
  exists r w', extractPdfText echoParser proseText false tt
               = Some (Normal r, w').
Proof.
  apply (extractPdfText_ends_normally echoParser proseText false tt).
  intros b w0. discriminate.
Defined.

Lemma extractPdfWithOcr_ends_normally_witness :
  exists r w',
    extractPdfWithOcr echoParser proseText false tt = Some (Normal r, w')
    /\ ocrUsed r = true.
Proof.
  apply (extractPdfWithOcr_ends_normally echoParser proseText false tt).
  intros b w0. discriminate.
Defined.

Lemma extractPdfText_result_well_formed_witness :
  Forall (fun c => isControl c = false) (fullText (proseResult false))
  /\ trim (fullText (proseResult false)) = fullText (proseResult false)
  /\ chunkText (fullText (proseResult false))
     = Some (chunks (proseResult false))
  /\ (chunks (proseResult false) = [] <-> fullText (proseResult false) = [])
  /\ Forall (fun c => c <> [] /\ trim c = c
                      /\ length c <= CONFIG.CHUNK_SIZE + 200
                      /\ exists pre post,
                          fullText (proseResult false) = pre ++ c ++ post)
       (chunks (proseResult false)).
Proof.
  apply (extractPdfText_result_well_formed echoParser proseText false tt tt
           (proseResult false)).
  vm_compute. reflexivity.
Defined.

Lemma extractPdfWithOcr_result_well_formed_witness :
  ocrUsed (proseResult true) = true
  /\ Forall (fun c => isControl c = false) (fullText (proseResult true))
  /\ trim (fullText (proseResult true)) = fullText (proseResult true)
  /\ chunkText (fullText (proseResult true))
     = Some (chunks (proseResult true))
  /\ (chunks (proseResult true) = [] <-> fullText (proseResult true) = [])
  /\ Forall (fun c => c <> [] /\ trim c = c
                      /\ length c <= CONFIG.CHUNK_SIZE + 200
                      /\ exists pre post,
                          fullText (proseResult true) = pre ++ c ++ post)
       (chunks (proseResult true)).
Proof.
  apply (extractPdfWithOcr_result_well_formed echoParser proseText false
           tt tt (proseResult true)).
  vm_compute. reflexivity.
Defined.

Lemma extractPdfText_zero_pages_iff_witness :
  pagesProcessed (emptyResult false) = 0
  <-> exists e : unit, @Throw unit PdfData tt = Throw e.
Proof.
  apply (extractPdfText_zero_pages_iff rejectingParser (lit "not a pdf")
           false tt tt tt (Throw tt) (emptyResult false)).
  - reflexivity.
  - reflexivity.
Defined.

Lemma extractPdfText_good_text_single_parse_witness :
  exists cs,
    chunkText (cleanText proseText) = Some cs
    /\ extractPdfText echoParser proseText false tt
       = Some (Normal {| fullText := cleanText proseText;
                         chunks := cs;
                         pagesProcessed := 1;
                         ocrUsed := false |}, tt).
Proof.
  apply (extractPdfText_good_text_single_parse echoParser proseText false
           tt tt {| text := Some proseText; numpages := Some 1 |}).
  - reflexivity.
  - vm_compute. reflexivity.
Defined.

Lemma extractPdfText_failed_fallback_keeps_native_witness :
  exists cs,
    chunkText (cleanText (repeat 0x37%N 200)) = Some cs
    /\ extractPdfText (failsOnSecondCall digits200) tt false 0%nat
       = Some (Normal {| fullText := cleanText (repeat 0x37%N 200);
                         chunks := cs;
                         pagesProcessed := 2;
                         ocrUsed := false |}, 2%nat).
Proof.
  apply (extractPdfText_failed_fallback_keeps_native
           (failsOnSecondCall digits200) tt false 0%nat 1%nat 2%nat
           digits200 tt).
  - reflexivity.
  - vm_compute. reflexivity.
  - reflexivity.
Defined.

Lemma extract_paths_agree_for_pure_parser_witness :
  exists r w1 w2,
    extractPdfText echoParser proseText false tt = Some (Normal r, w1)
    /\ ocrUsed r = false
    /\ extractPdfWithOcr echoParser proseText false tt
       = Some (Normal {| fullText := fullText r;
                         chunks := chunks r;
                         pagesProcessed := pagesProcessed r;
                         ocrUsed := true |}, w2).
Proof.
  apply (extract_paths_agree_for_pure_parser echoParser
           (fun b => Normal {| text := Some b; numpages := Some 1 |})
           proseText false tt).
  intros b w0. exists w0. reflexivity.
Defined.

(* ------------------------------------------------------------------ *)
(** ** Properties of the OCR worker *)
(* ------------------------------------------------------------------ *)

Section OcrWorkerFacts.

Context {World Error Worker Image Buffer : Type}.
Variable createWorker
  : jsstring -> Z -> jsstring -> M (OcrModule World Worker) Error Worker.
Variable terminate : Worker -> M (OcrModule World Worker) Error unit.
Variable recognize
  : Worker -> Buffer -> M (OcrModule World Worker) Error (option jsstring).
Variable sharp : Buffer -> M World Error Image.
Variables grayscale normalize sharpen png : Image -> Image.
Variable toBuffer : Image -> M (OcrModule World Worker) Error Buffer.

(** X19. The worker is cached.  At the moment [getOcrWorker] returns a
    worker, that worker is the value of [ocrWorker], whatever other calls
    have done to [ocrWorker] while the creation was awaited; and a call that
    starts while [ocrWorker] holds a worker, as the next call from that
    moment does, returns this worker and leaves the world as it is, so that
    it creates no worker. *)
Theorem getOcrWorker_is_cached (s s' : OcrModule World Worker) (k : Worker) :
  getOcrWorker createWorker s = Some (Normal k, s') ->
  snd s' = Some k
  /\ getOcrWorker createWorker s' = Some (Normal k, s')
  /\ (forall s0, snd s0 = Some k ->
                 getOcrWorker createWorker s0 = Some (Normal k, s0)).
Proof.
  assert (Hhit : forall s0, snd s0 = Some k ->
                            getOcrWorker createWorker s0
                            = Some (Normal k, s0)).
  { intros [w0 o0] E. simpl in E. subst o0. reflexivity. }
  intros Hget.
  assert (Hs' : snd s' = Some k).
  { destruct s as [w [k0|]];
      unfold getOcrWorker, bind, readOcrWorker, ret in Hget; simpl in Hget.
    - now injection Hget as <- <-.
    - unfold writeOcrWorker in Hget.
      destruct (createWorker _ _ _ (w, None)) as [[[k1 | e] s1] |];
        try discriminate.
      now injection Hget as <- <-. }
  split; [exact Hs'|]. split; [now apply Hhit | exact Hhit].
Qed.

(** X20. When [ocrWorker] is [null] and the awaited creation throws,
    [getOcrWorker] throws the same value and assigns nothing: the module
    is in the state in which the await ended.  If [ocrWorker] is [null]
    then, as it is unless another call has set it in the meantime, the
    next call asks for a worker again. *)
Theorem getOcrWorker_failure_assigns_nothing
  (s s1 : OcrModule World Worker) (e : Error) :
  snd s = None ->
  createWorker (lit "ara+fra") 1
    (lit "https://tessdata.projectnaptha.com/4.0.0") s
  = Some (Throw e, s1) ->
  getOcrWorker createWorker s = Some (Throw e, s1)
  /\ (snd s1 = None ->
      getOcrWorker createWorker s1
      = match createWorker (lit "ara+fra") 1
                (lit "https://tessdata.projectnaptha.com/4.0.0") s1 with
        | Some (Normal k, s2) => Some (Normal k, (fst s2, Some k))
        | Some (Throw e', s2) => Some (Throw e', s2)
        | None => None
        end).
Proof.
  intros Hnull Hthrow. split.
  - destruct s as [w o]. simpl in Hnull. subst o.
    unfold getOcrWorker, bind, readOcrWorker. simpl. now rewrite Hthrow.
  - destruct s1 as [w1 o1]. simpl. intros ->.
    unfold getOcrWorker, bind, readOcrWorker, writeOcrWorker, ret. simpl.
    destruct (createWorker _ _ _ (w1, None)) as [[[k2 | e2] s2] |];
      reflexivity.
Qed.

(** X21. After [terminateOcrWorker] has ended normally [ocrWorker] is
    [null] at that moment, also when another call has installed a worker
    while the termination was awaited; and a call that starts in that state
    ends normally without touching the world, so that nothing is terminated
    twice by it. *)
Theorem terminateOcrWorker_idempotent (s s' : OcrModule World Worker) :
  terminateOcrWorker terminate s = Some (Normal tt, s') ->
  snd s' = None /\ terminateOcrWorker terminate s' = Some (Normal tt, s').
Proof.
  intros Hend.
  assert (Hs' : snd s' = None).
  { destruct s as [w [k|]];
      unfold terminateOcrWorker, bind, readOcrWorker, ret, writeOcrWorker
        in Hend; simpl in Hend.
    - destruct (terminate k (w, Some k)) as [[[[] | e] s1] |];
        try discriminate.
      now injection Hend as <-.
    - now injection Hend as <-. }
  split; [exact Hs'|].
  destruct s' as [w' o']. simpl in Hs'. subst o'. reflexivity.
Qed.

(** X22. When [ocrWorker] holds a worker and the awaited
    [worker.terminate()] throws, [terminateOcrWorker] throws the same value
    and assigns nothing: the module is in the state in which the await
    ended, so [ocrWorker] is not reset by this call. *)
Theorem terminateOcrWorker_failure_assigns_nothing
  (s s1 : OcrModule World Worker) (k : Worker) (e : Error) :
  snd s = Some k ->
  terminate k s = Some (Throw e, s1) ->
  terminateOcrWorker terminate s = Some (Throw e, s1).
Proof.
  intros Hk Hthrow. destruct s as [w o]. simpl in Hk. subst o.
  unfold terminateOcrWorker, bind, readOcrWorker. simpl. now rewrite Hthrow.
Qed.

(** X23. [runOcr] never throws, and when no worker can be created it
    returns the empty string. *)
Theorem runOcr_never_throws (imageBuffer : Buffer) (highPrecision : bool)
  (s : OcrModule World Worker) :
  (forall e s',
      runOcr createWorker recognize sharp grayscale normalize sharpen png
        toBuffer imageBuffer highPrecision s <> Some (Throw e, s'))
  /\ (forall e s',
         getOcrWorker createWorker s = Some (Throw e, s') ->
         runOcr createWorker recognize sharp grayscale normalize sharpen png
           toBuffer imageBuffer highPrecision s = Some (Normal [], s')).
Proof.
  split.
  - intros e s'. unfold runOcr, tryCatch, ret.
    destruct (bind (getOcrWorker createWorker) _ s) as [[[t | e1] s1] |];
      discriminate.
  - intros e s' Hget. unfold runOcr, tryCatch, bind at 1. now rewrite Hget.
Qed.


End OcrWorkerFacts.

Lemma getOcrWorker_is_cached_witness :
  snd (2%nat, Some 0%nat) = Some 0%nat
  /\ getOcrWorker racingCreate (2%nat, Some 0%nat)
     = Some (Normal 0%nat, (2%nat, Some 0%nat))
  /\ (forall s0, snd s0 = Some 0%nat ->
                 getOcrWorker racingCreate s0 = Some (Normal 0%nat, s0)).
Proof.
  apply (getOcrWorker_is_cached racingCreate (0%nat, None)).
  reflexivity.
Defined.

Lemma getOcrWorker_failure_assigns_nothing_witness :
  getOcrWorker racingFailingCreate (0%nat, None)
  = Some (Throw tt, (2%nat, Some 1%nat)).
Proof.
  refine (proj1 (getOcrWorker_failure_assigns_nothing racingFailingCreate
                   (0%nat, None) (2%nat, Some 1%nat) tt _ _));
    reflexivity.
Defined.

Lemma terminateOcrWorker_idempotent_witness :
  snd (1%nat, @None nat) = None
  /\ terminateOcrWorker racingTerminate (1%nat, None)
     = Some (Normal tt, (1%nat, None)).
Proof.
  apply (terminateOcrWorker_idempotent racingTerminate (0%nat, Some 7%nat)).
  reflexivity.
Defined.

Lemma terminateOcrWorker_failure_assigns_nothing_witness :
  terminateOcrWorker racingFailingTerminate (0%nat, Some 7%nat)
  = Some (Throw tt, (2%nat, None)).
Proof.
  apply (terminateOcrWorker_failure_assigns_nothing racingFailingTerminate
           (0%nat, Some 7%nat) (2%nat, None) 7%nat tt);
    reflexivity.
Defined.


(* ------------------------------------------------------------------ *)
(** ** Properties of the routes *)
(* ------------------------------------------------------------------ *)

Section HandlerFacts.

Context {World Buffer Error : Type}.
Variable pdf : Buffer -> M World Error PdfData.
Variable analyzeDocument : jsstring -> jsstring -> M World Error jsstring.
Variable message : Error -> option jsstring.
Variable clock : World -> Z.

(** X24. [POST /api/extract] with a file never answers 500 for what the
    parser does: whenever the parser ends, the answer is 200 and carries
    the result of the path that the field [forceOcr] selects, so that a
    file the parser rejects is answered by 200 with an empty text. *)
Theorem apiExtract_with_file_is_200 (req : UploadRequest Buffer)
  (f : UploadedFile Buffer) (w : World) :
  (forall b w0, pdf b w0 <> None) ->
  file req = Some f ->
  exists r w',
    (if isTrue (body_forceOcr req)
     then extractPdfWithOcr pdf (buffer f) (isTrue (body_highPrecision req))
     else extractPdfText pdf (buffer f) (isTrue (body_highPrecision req))) w
    = Some (Normal r, w')
    /\ apiExtract pdf message clock req w
       = Some (Normal {| status := 200;
                         body := ExtractBody true (fullText r) (chunks r)
                                   (pagesProcessed r) (ocrUsed r)
                                   (clock w' - clock w) |}, w').
Proof.
  intros Hends Hfile.
  assert (Hrun : exists r w',
             (if isTrue (body_forceOcr req)
              then extractPdfWithOcr pdf (buffer f)
                     (isTrue (body_highPrecision req))
              else extractPdfText pdf (buffer f)
                     (isTrue (body_highPrecision req))) w
             = Some (Normal r, w')).
  { destruct (isTrue (body_forceOcr req)).
    - destruct (extractPdfWithOcr_returns pdf (buffer f)
                  (isTrue (body_highPrecision req)) w Hends)
        as (r & w' & H & _).
      now exists r, w'.
    - apply extractPdfText_returns. exact Hends. }
  destruct Hrun as (r & w' & Hrun). exists r, w'. split; [exact Hrun|].
  unfold apiExtract, tryCatch. rewrite Hfile. cbv beta iota zeta.
  unfold bind at 1. unfold now at 1. cbv beta iota.
  unfold bind at 1. rewrite Hrun. cbv beta iota.
  reflexivity.
Qed.

(** X25. [POST /api/analyze] answers a file that the parser rejects by 400,
    with the message that no text was found; the analysis is not run and
    the world is the one the parser left. *)
Theorem apiAnalyze_parse_failure_is_400 (req : UploadRequest Buffer)
  (f : UploadedFile Buffer) (w w1 : World) (e : Error) :
  file req = Some f ->
  pdf (buffer f) w = Some (Throw e, w1) ->
  apiAnalyze pdf analyzeDocument message req w
  = Some (Normal {| status := 400;
                    body := ErrorBody (lit "Aucun texte d" ++ [0xE9%N]
                                       ++ lit "tect" ++ [0xE9%N]
                                       ++ lit " dans le PDF") |}, w1).
Proof.
  intros Hfile Hpdf.
  unfold apiAnalyze, tryCatch. rewrite Hfile. cbv beta iota zeta.
  unfold bind at 1.
  unfold extractPdfText at 1. unfold tryCatch, bind at 1. rewrite Hpdf.
  reflexivity.
Qed.

(** X26. [POST /api/analyze] answers 200 only with a normalized text of at
    least 50 code units and with the chunks of that text, of which there
    is at least one. *)
Theorem apiAnalyze_success (req : UploadRequest Buffer) (w w' : World)
  (resp : Response) :
  apiAnalyze pdf analyzeDocument message req w = Some (Normal resp, w') ->
  status resp = 200 ->
  exists text cs analysis ocr,
    body resp = AnalyzeBody true text cs analysis ocr
    /\ 50 <= length text
    /\ trim text = text
    /\ chunkText text = Some cs
    /\ cs <> [].
Proof.
  intros Hrun Hstatus. unfold apiAnalyze, tryCatch in Hrun.
  destruct (file req) as [f|].
  2:{ injection Hrun as <- _. discriminate Hstatus. }
  cbv beta iota zeta in Hrun. unfold bind at 1 in Hrun.
  destruct (extractPdfText pdf (buffer f) (isTrue (body_highPrecision req)) w)
    as [[[r | e] w1] |] eqn:Hext; [| |discriminate Hrun].
  2:{ exfalso. exact (extractPdfText_no_throw _ _ _ _ _ _ Hext). }
  destruct (Z.ltb_spec (length (fullText r)) 50) as [Hshort | Hlong].
  { injection Hrun as <- _. discriminate Hstatus. }
  unfold bind in Hrun.
  destruct (analyzeDocument (fullText r) _ w1) as [[[a | e] w2] |];
    [| |discriminate Hrun].
  2:{ injection Hrun as <- _. discriminate Hstatus. }
  injection Hrun as <- _.
  apply extractPdfText_result in Hext as (t & Hfull & Hchunks).
  exists (fullText r), (chunks r), a, (ocrUsed r).
  repeat split; try assumption.
  - rewrite Hfull. apply cleanText_trimmed.
  - rewrite Hfull in Hchunks, Hlong.
    destruct (chunkText_cleanText _ _ Hchunks) as ([Hempty _] & _).
    intros E. apply Hempty in E. rewrite E in Hlong.
    unfold length in Hlong. simpl in Hlong. lia.
Qed.

End HandlerFacts.

Lemma apiExtract_with_file_is_200_witness :
  exists r w',
    extractPdfText echoParser proseText false tt = Some (Normal r, w')
    /\ apiExtract echoParser noMessage stoppedClock plainUpload tt
       = Some (Normal {| status := 200;
                         body := ExtractBody true (fullText r) (chunks r)
                                   (pagesProcessed r) (ocrUsed r)
                                   (stoppedClock w' - stoppedClock tt) |},
               w').
Proof.
  apply (apiExtract_with_file_is_200 echoParser noMessage stoppedClock
           plainUpload
           {| buffer := proseText; originalname := lit "bail.pdf";
              size := 71 |} tt).
  - intros b w0. discriminate.
  - reflexivity.
Defined.

Lemma apiAnalyze_parse_failure_is_400_witness :
  apiAnalyze rejectingParser echoAnalysis noMessage plainUpload tt
  = Some (Normal {| status := 400;
                    body := ErrorBody (lit "Aucun texte d" ++ [0xE9%N]
                                       ++ lit "tect" ++ [0xE9%N]
                                       ++ lit " dans le PDF") |}, tt).
Proof.
  apply (apiAnalyze_parse_failure_is_400 rejectingParser echoAnalysis
           noMessage plainUpload
           {| buffer := proseText; originalname := lit "bail.pdf";
              size := 71 |} tt tt tt).
  - reflexivity.
  - reflexivity.
Defined.

Lemma apiAnalyze_success_witness :
  exists text cs analysis ocr,
    AnalyzeBody true proseText [proseText] proseText false
    = AnalyzeBody true text cs analysis ocr
    /\ 50 <= length text
    /\ trim text = text
    /\ chunkText text = Some cs
    /\ cs <> [].
Proof.
  apply (apiAnalyze_success echoParser echoAnalysis noMessage plainUpload
           tt tt
           {| status := 200;
              body := AnalyzeBody true proseText [proseText] proseText
                        false |}).
  - vm_compute. reflexivity.
  - reflexivity.
Defined.

(* ------------------------------------------------------------------ *)
(** ** Further facts: neighbours, the newline collapse, lines *)
(* ------------------------------------------------------------------ *)


Lemma adjacent_cons (R : char -> char -> Prop) (a : char) (s : jsstring) :
  adjacent R (a :: s) -> adjacent R s.
Proof. destruct s; simpl; tauto. Qed.

Lemma adjacent_cons_free (R : char -> char -> Prop) (a : char)
  (s : jsstring) :
  (forall b, R a b) -> adjacent R s -> adjacent R (a :: s).
Proof. destruct s; simpl; auto. Qed.

Lemma adjacent_app_l (R : char -> char -> Prop) (s t : jsstring) :
  adjacent R (s ++ t) -> adjacent R s.
Proof.
  induction s as [|a s IH]; [simpl; trivial|].
  destruct s as [|b s]; [simpl; trivial|].
  simpl. intros [Hab H]. split; [exact Hab | apply IH; exact H].
Qed.

Lemma adjacent_app_r (R : char -> char -> Prop) (s t : jsstring) :
  adjacent R (s ++ t) -> adjacent R t.
Proof.
  induction s as [|a s IH]; [trivial|].
  intros H. apply IH. now apply adjacent_cons in H.
Qed.

Lemma adjacent_trim (R : char -> char -> Prop) (s : jsstring) :
  adjacent R s -> adjacent R (trim s).
Proof.
  intros H. destruct (trim_split s) as (pre & post & Heq & _).
  rewrite Heq in H. apply adjacent_app_r in H. now apply adjacent_app_l in H.
Qed.

(** Two strings joined by a separator that every code unit may touch. *)
Lemma adjacent_join (R : char -> char -> Prop) (sep : char)
  (s t : jsstring) :
  (forall x, In x s -> R x sep) -> (forall y, In y t -> R sep y) ->
  adjacent R s -> adjacent R t -> adjacent R (s ++ sep :: t).
Proof.
  intros Hl Hr Hs Ht. induction s as [|a s IH].
  - simpl. destruct t as [|b t]; [exact I|]. split; [|exact Ht].
    apply Hr. now left.
  - assert (Htail : adjacent R (s ++ sep :: t)).
    { apply IH; [intros x Hx; apply Hl; now right|].
      now apply adjacent_cons in Hs. }
    destruct s as [|b s]; simpl in *.
    + split; [apply Hl; now left | exact Htail].
    + split; [apply Hs | exact Htail].
Qed.

Lemma replaceRunsFrom_nothing (p : char -> bool) (n : nat)
  (repl s : jsstring) :
  Forall (fun c => p c = false) s -> replaceRunsFrom p n repl [] s = s.
Proof.
  induction 1 as [|c s Hc _ IH]; simpl; [reflexivity|].
  now rewrite Hc, IH.
Qed.

Lemma replaceRunsFrom_single_spaces (s : jsstring) :
  forall run,
    (run = [] \/ run = [SPACE]) ->
    Forall (fun c => isSpaceTab c = true -> c = SPACE) s ->
    adjacent spacesApart (run ++ s) ->
    replaceRunsFrom isSpaceTab 1 [SPACE] run s = run ++ s.
Proof.
  induction s as [|c s IH]; intros run Hrun Hsp Hadj; simpl.
  - destruct Hrun as [-> | ->]; reflexivity.
  - inversion Hsp as [|? ? Hc Hs]; subst.
    destruct (isSpaceTab c) eqn:Ec.
    + destruct Hrun as [-> | ->].
      * rewrite (Hc eq_refl) in *. simpl.
        apply (IH [SPACE]); [now right | exact Hs | exact Hadj].
      * exfalso. simpl in Hadj. destruct Hadj as [Hadj _].
        unfold spacesApart in Hadj. rewrite Ec in Hadj.
        specialize (Hadj eq_refl). discriminate.
    + rewrite (IH []); [| now left | exact Hs |].
      * destruct Hrun as [-> | ->]; reflexivity.
      * simpl. apply adjacent_app_r in Hadj. now apply adjacent_cons in Hadj.
Qed.

Lemma replaceRunsFrom_spaces_apart (s : jsstring) :
  forall run, adjacent spacesApart (replaceRunsFrom isSpaceTab 1 [SPACE] run s).
Proof.
  induction s as [|c s IH]; intros run; simpl.
  - destruct run; simpl; exact I.
  - destruct (isSpaceTab c) eqn:Ec; [apply IH|].
    assert (Htail : adjacent spacesApart
                      (c :: replaceRunsFrom isSpaceTab 1 [SPACE] [] s)).
    { apply adjacent_cons_free; [|apply IH].
      intros b Hb. congruence. }
    destruct run as [|a run]; [exact Htail|].
    simpl. split; [|exact Htail]. intros _. exact Ec.
Qed.

Lemma repeat_snoc (c : char) (k : nat) : repeat c k ++ [c] = repeat c (S k).
Proof. induction k as [|k IH]; simpl; [reflexivity | now rewrite IH]. Qed.

Lemma flushRun_newlines (k : nat) :
  flushRun 3 [LF; LF] (repeat LF k) = repeat LF (Nat.min k 2).
Proof.
  destruct k as [|[|[|k]]]; simpl; rewrite ?Nat.min_0_r; reflexivity.
Qed.

Lemma replaceRunsFrom_collapse (s : jsstring) :
  forall k,
    replaceRunsFrom isNewline 3 [LF; LF] (repeat LF k) s
    = repeat LF (Nat.min k 2) ++ collapseFrom k s.
Proof.
  induction s as [|c s IH]; intros k; simpl.
  - now rewrite flushRun_newlines, app_nil_r.
  - destruct (isNewline c) eqn:Ec.
    + apply N.eqb_eq in Ec. subst c. rewrite repeat_snoc, IH.
      destruct k as [|[|k]]; simpl; rewrite ?Nat.min_0_r; reflexivity.
    + rewrite flushRun_newlines. f_equal. f_equal. apply (IH 0%nat).
Qed.

Lemma replaceRuns_collapse (s : jsstring) :
  replaceRuns isNewline 3 [LF; LF] s = collapseFrom 0 s.
Proof. apply (replaceRunsFrom_collapse s 0). Qed.

Lemma collapseFrom_idempotent (s : jsstring) :
  forall k m,
    m = Nat.min k 2 ->
    collapseFrom m (collapseFrom k s) = collapseFrom k s.
Proof.
  induction s as [|c s IH]; intros k m Hm; simpl; [reflexivity|].
  destruct (isNewline c) eqn:Ec.
  - destruct (Nat.ltb_spec k 2).
    + simpl. rewrite Ec. destruct (Nat.ltb_spec m 2); [|lia].
      f_equal. apply IH. lia.
    + apply IH. lia.
  - simpl. rewrite Ec. f_equal. now apply IH.
Qed.

(** Without three newlines in a row there is nothing to collapse. *)
Lemma collapseFrom_nothing (s : jsstring) :
  forall k m,
    m = Nat.min k 2 ->
    (forall pre post, repeat LF m ++ s <> pre ++ [LF; LF; LF] ++ post) ->
    collapseFrom k s = s.
Proof.
  induction s as [|c s IH]; intros k m Hm Hno; simpl; [reflexivity|].
  destruct (isNewline c) eqn:Ec.
  - apply N.eqb_eq in Ec. subst c. destruct (Nat.ltb_spec k 2).
    + f_equal. apply (IH (S k) (S m)); [lia|].
      intros pre post Heq. apply (Hno pre post).
      rewrite <- Heq, <- repeat_snoc, <- app_assoc. reflexivity.
    + exfalso. assert (E : m = 2%nat) by lia. rewrite E in Hno.
      apply (Hno [] s). reflexivity.
  - f_equal. apply (IH 0%nat 0%nat); [reflexivity|].
    intros pre post Heq. simpl in Heq.
    apply (Hno (repeat LF m ++ c :: pre) post).
    rewrite Heq, <- app_assoc. reflexivity.
Qed.

(** The collapse brings no new neighbours: behind a dropped newline stands
    a newline. *)
Lemma collapseFrom_adjacent (R : char -> char -> Prop) (s : jsstring) :
  forall prev k,
    (k <> 0%nat -> prev = LF) ->
    adjacent R (prev :: s) ->
    adjacent R (prev :: collapseFrom k s).
Proof.
  induction s as [|c s IH]; intros prev k Hprev Hadj; simpl; [exact I|].
  destruct Hadj as [Hpc Hadj].
  destruct (isNewline c) eqn:Ec.
  - assert (c = LF) by (now apply N.eqb_eq in Ec). subst c.
    destruct (k <? 2)%nat eqn:Ek.
    + split; [exact Hpc|]. apply IH; [reflexivity | exact Hadj].
    + apply Nat.ltb_ge in Ek. rewrite Hprev by lia.
      apply IH; [reflexivity | exact Hadj].
  - split; [exact Hpc|]. apply IH; [intros Hk; congruence | exact Hadj].
Qed.

Lemma collapseFrom_last (front : jsstring) (d : char) :
  isNewline d = false ->
  forall k, collapseFrom k (front ++ [d]) = collapseFrom k front ++ [d].
Proof.
  intros Hd. induction front as [|c front IH]; intros k; simpl.
  - now rewrite Hd.
  - destruct (isNewline c); [destruct (k <? 2)%nat|]; simpl;
      now rewrite IH.
Qed.

Lemma collapseFrom_length (s : jsstring) :
  forall k, (List.length (collapseFrom k s) <= List.length s)%nat.
Proof.
  induction s as [|c s IH]; intros k; simpl; [lia|].
  destruct (isNewline c); [destruct (k <? 2)%nat|]; simpl.
  - specialize (IH (S k)). lia.
  - specialize (IH (S k)). lia.
  - specialize (IH 0%nat). lia.
Qed.

Lemma collapseFrom_newline (k : nat) (s : jsstring) :
  collapseFrom k (LF :: s)
  = if (k <? 2)%nat then LF :: collapseFrom (S k) s
    else collapseFrom (S k) s.
Proof. reflexivity. Qed.

Lemma collapseFrom_shortens (pre post : jsstring) :
  forall k,
    (List.length (collapseFrom k (pre ++ [LF; LF; LF] ++ post))
     < List.length (pre ++ [LF; LF; LF] ++ post))%nat.
Proof.
  induction pre as [|c pre IH]; intros k.
  - change ([] ++ [LF; LF; LF] ++ post) with (LF :: LF :: LF :: post).
    rewrite !collapseFrom_newline.
    pose proof (collapseFrom_length post (S (S (S k)))).
    destruct (Nat.ltb_spec k 2), (Nat.ltb_spec (S k) 2),
      (Nat.ltb_spec (S (S k)) 2); simpl List.length; lia.
  - simpl. destruct (isNewline c); [destruct (k <? 2)%nat|]; simpl.
    + specialize (IH (S k)). simpl in IH. lia.
    + specialize (IH (S k)). simpl in IH. lia.
    + specialize (IH 0%nat). simpl in IH. lia.
Qed.

Lemma splitLines_first (s : jsstring) :
  forall l ls,
    splitLines s = l :: ls ->
    Forall (fun c => isNewline c = false) l
    /\ ((s = l /\ ls = []) \/ exists r, s = l ++ LF :: r).
Proof.
  induction s as [|c s IH]; intros l ls Heq; simpl in Heq.
  - injection Heq as <- <-. split; [constructor | now left].
  - destruct (N.eqb c LF) eqn:Ec.
    + injection Heq as <- <-. split; [constructor|]. right.
      apply N.eqb_eq in Ec. subst c. now exists s.
    + destruct (splitLines s) as [|l' ls'] eqn:Es;
        [now apply splitLines_nonempty in Es|].
      injection Heq as <- <-.
      destruct (IH l' ls' eq_refl) as (Hfree & Hcase). split.
      * constructor; [exact Ec | exact Hfree].
      * destruct Hcase as [[-> ->] | (r & ->)]; [now left | right].
        now exists r.
Qed.

Lemma splitLines_no_newline (s : jsstring) :
  Forall (Forall (fun c => isNewline c = false)) (splitLines s).
Proof.
  induction s as [|c s IH]; simpl; [repeat constructor|].
  destruct (N.eqb c LF) eqn:Ec; [constructor; [constructor | exact IH]|].
  destruct (splitLines s) as [|l ls]; [repeat constructor; exact Ec|].
  inversion IH; subst. constructor; [now constructor | assumption].
Qed.

Lemma splitLines_adjacent (R : char -> char -> Prop) (s : jsstring) :
  adjacent R s -> Forall (adjacent R) (splitLines s).
Proof.
  induction s as [|c s IH]; intros Hadj; simpl; [repeat constructor|].
  pose proof (IH (adjacent_cons _ _ _ Hadj)) as Hlines.
  destruct (N.eqb c LF); [constructor; [exact I | exact Hlines]|].
  destruct (splitLines s) as [|l ls] eqn:Es;
    [now apply splitLines_nonempty in Es|].
  inversion Hlines; subst. constructor; [|assumption].
  destruct (splitLines_first s l ls Es) as (_ & [[-> _] | (r & ->)]);
    [exact Hadj|].
  apply (adjacent_app_l R (c :: l) (LF :: r)). exact Hadj.
Qed.

(** Lines joined by newlines, for a relation that lets the end of a line
    and the start of the next one touch a newline. *)
Lemma adjacent_glue (R : char -> char -> Prop) (sep : char)
  (s t : jsstring) :
  (forall front x, s = front ++ [x] -> R x sep) ->
  (forall y rest, t = y :: rest -> R sep y) ->
  adjacent R s -> adjacent R t -> adjacent R (s ++ sep :: t).
Proof.
  intros Hl Hr Hs Ht. induction s as [|a s IH].
  - simpl. destruct t as [|b t]; [exact I|]. split; [|exact Ht].
    now apply (Hr b t).
  - destruct s as [|b s].
    + simpl. split; [now apply (Hl [] a) | apply IH; try exact I].
      intros front x Heq. destruct front; discriminate.
    + simpl. destruct Hs as [Hab Hs]. split; [exact Hab|].
      apply IH; [|exact Hs].
      intros front x Heq. apply (Hl (a :: front) x). simpl. now rewrite Heq.
Qed.

Lemma joinLines_adjacent (R : char -> char -> Prop) (ls : list jsstring) :
  (forall x, R x LF) -> (forall y, R LF y) ->
  Forall (adjacent R) ls -> adjacent R (joinLines ls).
Proof.
  intros Hl Hr. induction 1 as [|l ls Hhead Htail IH]; [exact I|].
  destruct ls as [|l2 ls]; [exact Hhead|].
  rewrite joinLines_cons by discriminate.
  apply adjacent_glue; auto.
Qed.

Lemma trimEnd_fixed (front : jsstring) (d : char) :
  isWhiteSpace d = false -> trimEnd (front ++ [d]) = front ++ [d].
Proof.
  intros Hd. induction front as [|a front IH]; simpl.
  - now rewrite Hd.
  - rewrite IH. destruct (front ++ [d]) eqn:E; [|reflexivity].
    destruct front; discriminate.
Qed.

Lemma trim_clean (s : jsstring) :
  match s with [] => True | c :: _ => isWhiteSpace c = false end ->
  (forall front d, s = front ++ [d] -> isWhiteSpace d = false) ->
  trim s = s.
Proof.
  intros Hhead Hlast. unfold trim, trimStart.
  rewrite (dropWhile_fixed _ s Hhead).
  destruct s as [|c s]; [reflexivity|].
  destruct (@exists_last _ (c :: s)) as (front & d & Heq); [discriminate|].
  rewrite Heq. apply trimEnd_fixed. now apply (Hlast front d).
Qed.

Lemma trimmed_last (t front : jsstring) (d : char) :
  trim t = t -> t = front ++ [d] -> isWhiteSpace d = false.
Proof.
  intros Ht Heq. rewrite <- Ht in Heq. unfold trim in Heq.
  now apply trimEnd_last in Heq.
Qed.

Lemma trimmed_head (t rest : jsstring) (c : char) :
  trim t = t -> t = c :: rest -> isWhiteSpace c = false.
Proof.
  intros Ht Heq. pose proof (trim_head t) as H. rewrite Ht, Heq in H.
  exact H.
Qed.

(** Lines whose ends are tight against the newlines are trimmed lines. *)
Lemma lines_trimmed (z : jsstring) :
  adjacent newlineTight z ->
  (forall front d, z = front ++ [d] -> isWhiteSpace d = false) ->
  forall l ls,
    splitLines z = l :: ls ->
    trimEnd l = l /\ Forall (fun t => trim t = t) ls.
Proof.
  induction z as [|c z IH]; intros Hadj Hlast l ls Heq; simpl in Heq.
  - injection Heq as <- <-. split; [reflexivity | constructor].
  - assert (Hlast' : forall front d, z = front ++ [d] ->
                                     isWhiteSpace d = false).
    { intros front d ->. now apply (Hlast (c :: front) d). }
    destruct (splitLines z) as [|l' ls'] eqn:Es;
      [now apply splitLines_nonempty in Es|].
    destruct (IH (adjacent_cons _ _ _ Hadj) Hlast' l' ls' eq_refl)
      as (Hend & Hrest).
    destruct (splitLines_first z l' ls' Es) as (Hfree & Hcase).
    destruct (N.eqb c LF) eqn:Ec.
    + injection Heq as <- <-. split; [reflexivity|].
      constructor; [|exact Hrest].
      unfold trim, trimStart. rewrite dropWhile_fixed; [exact Hend|].
      destruct l' as [|d t]; [exact I|].
      inversion Hfree as [|? ? Hd _]; subst.
      assert (Hz : exists r, z = d :: r).
      { destruct Hcase as [[-> _] | (r & ->)]; eexists; reflexivity. }
      destruct Hz as (r & ->). destruct Hadj as [[Htight _] _].
      destruct (isWhiteSpace d) eqn:Hws; [|reflexivity].
      rewrite Htight in Hd; [discriminate | exact Ec | reflexivity].
    + injection Heq as <- <-. split; [|exact Hrest].
      simpl. rewrite Hend. destruct l' as [|d t]; [|reflexivity].
      assert (Hc : isWhiteSpace c = false).
      { destruct Hcase as [[-> _] | (r & ->)].
        - now apply (Hlast [] c).
        - destruct Hadj as [[_ Htight] _].
          destruct (isWhiteSpace c) eqn:Hws; [|reflexivity].
          unfold isNewline in Htight.
          rewrite Htight in Ec; [discriminate | reflexivity | reflexivity]. }
      now rewrite Hc.
Qed.

Lemma map_fixed (f : jsstring -> jsstring) (ls : list jsstring) :
  Forall (fun t => f t = t) ls -> map f ls = ls.
Proof. induction 1 as [|l ls Hl _ IH]; simpl; [reflexivity | now rewrite Hl, IH]. Qed.

Lemma lines_fixed (z : jsstring) :
  match z with [] => True | c :: _ => isWhiteSpace c = false end ->
  adjacent newlineTight z ->
  (forall front d, z = front ++ [d] -> isWhiteSpace d = false) ->
  joinLines (map trim (splitLines z)) = z.
Proof.
  intros Hhead Hadj Hlast.
  destruct (splitLines z) as [|l ls] eqn:Es;
    [now apply splitLines_nonempty in Es|].
  destruct (lines_trimmed z Hadj Hlast l ls Es) as (Hend & Hrest).
  destruct (splitLines_first z l ls Es) as (_ & Hcase).
  assert (Hl : trim l = l).
  { unfold trim, trimStart. rewrite dropWhile_fixed; [exact Hend|].
    destruct l as [|d t]; [exact I|].
    destruct Hcase as [[-> _] | (r & ->)]; exact Hhead. }
  cbn [map]. rewrite Hl, (map_fixed trim ls Hrest), <- Es.
  apply joinLines_splitLines.
Qed.

Lemma collapse_adjacent (R : char -> char -> Prop) (s : jsstring) :
  adjacent R s -> adjacent R (collapseFrom 0 s).
Proof.
  intros Hadj. destruct s as [|c s]; [exact I|]. simpl.
  destruct (isNewline c) eqn:Ec.
  - apply N.eqb_eq in Ec. subst c.
    apply collapseFrom_adjacent; [reflexivity | exact Hadj].
  - apply collapseFrom_adjacent; [congruence | exact Hadj].
Qed.

Lemma no_newline_tight (t : jsstring) :
  Forall (fun c => isNewline c = false) t -> adjacent newlineTight t.
Proof.
  induction 1 as [|a t Ha Ht IH]; [exact I|].
  destruct t as [|b t]; [exact I|]. split; [|exact IH].
  inversion Ht; subst. split; intros; congruence.
Qed.

Lemma joinLines_tight (ls : list jsstring) :
  Forall (fun t => trim t = t /\ Forall (fun c => isNewline c = false) t) ls ->
  adjacent newlineTight (joinLines ls)
  /\ match joinLines ls with
     | [] => True
     | y :: _ => isWhiteSpace y = true -> isNewline y = true
     end.
Proof.
  induction 1 as [|l ls [Htrim Hfree] Hrest IH]; [split; exact I|].
  destruct ls as [|l2 ls].
  - simpl. split; [now apply no_newline_tight|].
    destruct l as [|y rest]; [exact I|].
    rewrite (trimmed_head _ _ _ Htrim eq_refl). discriminate.
  - rewrite joinLines_cons by discriminate. destruct IH as (IHadj & IHhead).
    split.
    + apply adjacent_glue; [| | now apply no_newline_tight | exact IHadj].
      * intros front x Heq. split; [intros; reflexivity|].
        intros _ Hx. rewrite (trimmed_last _ _ _ Htrim Heq) in Hx.
        discriminate Hx.
      * intros y rest Heq. rewrite Heq in IHhead.
        split; [intros _; exact IHhead | intros; reflexivity].
    + destruct l as [|y rest]; cbn [app]; [intros _; reflexivity|].
      intros Hy. rewrite (trimmed_head (y :: rest) rest y Htrim eq_refl) in Hy.
      discriminate Hy.
Qed.

Lemma cleanText_spaces_apart (text : jsstring) :
  adjacent spacesApart (cleanText text).
Proof.
  destruct text as [|c text]; [exact I|]. unfold cleanText.
  apply adjacent_trim, joinLines_adjacent.
  - intros x _. reflexivity.
  - intros y Hy. discriminate Hy.
  - apply Forall_map.
    eapply Forall_impl; [intros l Hl; apply adjacent_trim; exact Hl|].
    apply splitLines_adjacent. rewrite replaceRuns_collapse.
    apply collapse_adjacent. apply replaceRunsFrom_spaces_apart.
Qed.

Lemma cleanText_newline_tight (text : jsstring) :
  adjacent newlineTight (cleanText text).
Proof.
  destruct text as [|c text]; [exact I|]. unfold cleanText.
  apply adjacent_trim, joinLines_tight.
  apply Forall_map.
  eapply Forall_impl; [|apply splitLines_no_newline].
  intros l Hl. split; [apply trim_idempotent | now apply trim_Forall].
Qed.

Lemma cleanText_last (text front : jsstring) (d : char) :
  cleanText text = front ++ [d] -> isWhiteSpace d = false.
Proof.
  intros Heq. destruct text as [|a text]; [destruct front; discriminate|].
  unfold cleanText, trim in Heq. now apply trimEnd_last in Heq.
Qed.

Lemma cleanText_head (text rest : jsstring) (c : char) :
  cleanText text = c :: rest -> isWhiteSpace c = false.
Proof.
  intros Heq. pose proof (trim_head (cleanText text)) as H.
  rewrite cleanText_trimmed, Heq in H. exact H.
Qed.

(** On a normalized text the normalizer does nothing but collapse the runs
    of newlines. *)
Lemma cleanText_again (text : jsstring) :
  cleanText (cleanText text)
  = replaceRuns isNewline 3 [LF; LF] (cleanText text).
Proof.
  pose proof (cleanText_control_free text) as Hctl.
  pose proof (cleanText_spaces_apart text) as Hsp.
  pose proof (cleanText_newline_tight text) as Htight.
  pose proof (cleanText_head text) as Hhead.
  pose proof (cleanText_last text) as Hlast.
  destruct (cleanText text) as [|c y] eqn:Ey; [reflexivity|].
  assert (Hc : isWhiteSpace c = false) by (now apply (Hhead y c)).
  assert (Hnl : isNewline c = false).
  { destruct (isNewline c) eqn:E; [|reflexivity].
    apply N.eqb_eq in E. subst c. discriminate Hc. }
  unfold cleanText at 1.
  assert (H1 : replaceRuns isControl 1 [] (c :: y) = c :: y)
    by (apply replaceRunsFrom_nothing; exact Hctl).
  rewrite H1.
  assert (H2 : replaceRuns isSpaceTab 1 [SPACE] (c :: y) = c :: y).
  { apply (replaceRunsFrom_single_spaces (c :: y) []);
      [now left | | exact Hsp].
    eapply Forall_impl; [|exact Hctl]. intros a Ha Hst.
    unfold isSpaceTab in Hst. apply orb_prop in Hst as [E | E];
      apply N.eqb_eq in E; subst a; [reflexivity | discriminate Ha]. }
  rewrite H2, replaceRuns_collapse.
  set (z := collapseFrom 0 (c :: y)).
  assert (Hz : z = c :: collapseFrom 0 y)
    by (unfold z; simpl; now rewrite Hnl).
  assert (Hzlast : forall front d, z = front ++ [d] ->
                                   isWhiteSpace d = false).
  { intros front d Heq.
    destruct (@exists_last _ (c :: y)) as (f0 & d0 & Hy); [discriminate|].
    assert (Hd0 : isWhiteSpace d0 = false) by (now apply (Hlast f0 d0)).
    assert (Hd0nl : isNewline d0 = false).
    { destruct (isNewline d0) eqn:E; [|reflexivity].
      apply N.eqb_eq in E. subst d0. discriminate Hd0. }
    unfold z in Heq. rewrite Hy, (collapseFrom_last f0 d0 Hd0nl) in Heq.
    apply app_inj_tail in Heq as [_ <-]. exact Hd0. }
  assert (Hzhead : match z with
                   | [] => True
                   | a :: _ => isWhiteSpace a = false
                   end) by (rewrite Hz; exact Hc).
  rewrite lines_fixed;
    [| exact Hzhead | apply collapse_adjacent; exact Htight | exact Hzlast].
  apply trim_clean; assumption.
Qed.

(* ------------------------------------------------------------------ *)
(** ** Properties of a second pass of the normalizer *)
(* ------------------------------------------------------------------ *)

(** X27. On a text that is already normalized, the normalizer only
    collapses the runs of three or more newlines: the other steps leave it
    as it is. *)
Theorem cleanText_second_pass (text : jsstring) :
  cleanText (cleanText text)
  = replaceRuns isNewline 3 [LF; LF] (cleanText text).
Proof. apply cleanText_again. Qed.

(** X28. Two passes are enough: a third pass of the normalizer changes
    nothing. *)
Theorem cleanText_stable_after_two_passes (text : jsstring) :
  cleanText (cleanText (cleanText text)) = cleanText (cleanText text).
Proof.
  rewrite (cleanText_again (cleanText text)), (cleanText_again text).
  rewrite !replaceRuns_collapse.
  now apply collapseFrom_idempotent.
Qed.

(** X29. A second pass changes the normalized text exactly when that text
    holds three newlines in a row. *)
Theorem cleanText_idempotent_iff (text : jsstring) :
  cleanText (cleanText text) = cleanText text
  <-> forall pre post, cleanText text <> pre ++ [LF; LF; LF] ++ post.
Proof.
  rewrite cleanText_again, replaceRuns_collapse. split.
  - intros Hfix pre post Heq.
    pose proof (collapseFrom_shortens pre post 0) as Hshort.
    rewrite <- Heq, Hfix in Hshort. lia.
  - intros Hno. now apply (collapseFrom_nothing _ 0%nat 0%nat).
Qed.
